(** * vlsi-design: the SMT-LIB encoder, the MIP decode path and the reporter

    A shallow embedding of

    - [SMT/src/build_models_z3.py]  ([build_SMTLIB_model]),
    - [MIP/src/model.py]            ([run_mip_solver], [compute_solution]),
    - [utils/solution_log.py]       ([print_logging]),

    together with the properties of the strip-packing encoding and of the
    solution reporting that the specification states.

    Python integers are unbounded, so they are [Z]; Python lists are [list];
    a raised exception is the [Raise] branch of [result]. *)

From Stdlib Require Import ZArith QArith Qround Ascii String List Lia.
From stdpp Require Import base numbers option list strings pretty gmap.

Local Open Scope string_scope.
Local Open Scope list_scope.
Local Open Scope Z_scope.

(* ===================================================================== *)
(** * Python runtime: exceptions and the builtins the sources call       *)
(* ===================================================================== *)

Module Py.

Inductive exn :=
  | IndexError
  | ZeroDivisionError
  | ValueError
  | TypeError
  | UnboundLocalError
  | AttributeError
  | BaseException (msg : string)
  | External (what : string).

Inductive result (A : Type) :=
  | Ok (a : A)
  | Raise (e : exn).
Arguments Ok {A} a.
Arguments Raise {A} e.

#[global] Instance result_ret : MRet result := λ A a, Ok a.
#[global] Instance result_bind : MBind result := λ A B f m,
  match m with
  | Ok a => f a
  | Raise e => Raise e
  end.

Definition is_Ok {A} (r : result A) : Prop := ∃ a, r = Ok a.

(** [range(n)] for a Python int [n]: empty when [n <= 0]. *)
Definition range (n : Z) : list nat := seq 0 (Z.to_nat n).

(** [l[i]] for [i >= 0]: [IndexError] out of range. *)
Definition index {A} (l : list A) (i : nat) : result A :=
  match l !! i with
  | Some x => Ok x
  | None => Raise IndexError
  end.

(** [sum(l)]: left to right from 0. *)
Definition sum (l : list Z) : Z := foldl Z.add 0 l.

(** [min(l)] and [max(l)]: [ValueError] on the empty list. *)
Definition min (l : list Z) : result Z :=
  match l with
  | [] => Raise ValueError
  | x :: t => Ok (foldl Z.min x t)
  end.

Definition max (l : list Z) : result Z :=
  match l with
  | [] => Raise ValueError
  | x :: t => Ok (foldl Z.max x t)
  end.

(** [l.index(x)]: the first position holding [x], [ValueError] if none. *)
Fixpoint list_index (x : Z) (l : list Z) : result nat :=
  match l with
  | [] => Raise ValueError
  | y :: t => if decide (y = x) then Ok 0%nat
              else k ← list_index x t; Ok (S k)
  end.

(** [math.ceil(a / b)] on integers. The source divides in floating point;
    the quotient of two integers below 2^53 is rounded correctly and its
    ceiling is then the exact one, which is what is modelled here. *)
Definition ceil_div (a b : Z) : result Z :=
  if decide (b = 0) then Raise ZeroDivisionError else Ok (- ((- a) `div` b)).

(** The list comprehension [[e for i in range(n) for j in range(n) if i < j]]
    and the two nested [for] loops with [if i < j] visit the pairs in this
    order. *)
Definition pairs_lt (n : Z) : list (nat * nat) :=
  i ← range n; j ← range n; if decide (i < j)%nat then [(i, j)] else [].

End Py.

Import Py.

(* ===================================================================== *)
(** * SMT-LIB terms, their text and their meaning                         *)
(* ===================================================================== *)

Module SMT.

(** The declared integer constants: [coord_x{i}], [coord_y{i}] and [l]. *)
Inductive var :=
  | coord_x (i : nat)
  | coord_y (i : nat)
  | l_var.

Inductive op := And | Or | Ge | Le | Lt | Eq | Add | Sub | Ite.

#[local] Unset Elimination Schemes.
Inductive term :=
  | Num (z : Z)
  | Var (v : var)
  | TTrue
  | App (o : op) (args : list term).
#[local] Set Elimination Schemes.

Inductive command :=
  | SetLogic (logic : string)
  | DeclareInt (v : var)
  | Assert (t : term)
  | CheckSat
  | GetModel.

(** ** Text: what the f-strings of the source write *)

Definition render_var (v : var) : string :=
  match v with
  | coord_x i => "coord_x" +:+ pretty i
  | coord_y i => "coord_y" +:+ pretty i
  | l_var => "l"
  end.

Definition render_op (o : op) : string :=
  match o with
  | And => "and" | Or => "or" | Ge => ">=" | Le => "<=" | Lt => "<"
  | Eq => "=" | Add => "+" | Sub => "-" | Ite => "ite"
  end.

Fixpoint render_term (t : term) : string :=
  match t with
  | Num z => pretty z
  | Var v => render_var v
  | TTrue => "true"
  | App o args =>
      "(" +:+ render_op o +:+ " " +:+ String.concat " " (map render_term args) +:+ ")"
  end.

Definition render_command (c : command) : string :=
  match c with
  | SetLogic logic => "(set-logic " +:+ logic +:+ ")"
  | DeclareInt v => "(declare-fun " +:+ render_var v +:+ " () Int)"
  | Assert t => "(assert " +:+ render_term t +:+ ")"
  | CheckSat => "(check-sat)"
  | GetModel => "(get-model)"
  end.

(** ** Meaning: evaluation under an assignment of the integer constants *)

Inductive value := VInt (z : Z) | VBool (b : bool).

Definition as_int (v : option value) : option Z :=
  match v with Some (VInt z) => Some z | _ => None end.
Definition as_bool (v : option value) : option bool :=
  match v with Some (VBool b) => Some b | _ => None end.

(** [and], [or] and [+] take any number of arguments; the comparisons and
    [-] are used with two, [ite] with three of matching sorts. An ill-sorted
    application has no value. *)
Definition apply_op (o : op) (vs : list (option value)) : option value :=
  match o with
  | And => bs ← mapM as_bool vs; Some (VBool (forallb id bs))
  | Or => bs ← mapM as_bool vs; Some (VBool (existsb id bs))
  | Add => zs ← mapM as_int vs; Some (VInt (foldr Z.add 0 zs))
  | Ge => match vs with
          | [Some (VInt x); Some (VInt y)] => Some (VBool (bool_decide (x >= y)))
          | _ => None end
  | Le => match vs with
          | [Some (VInt x); Some (VInt y)] => Some (VBool (bool_decide (x <= y)))
          | _ => None end
  | Lt => match vs with
          | [Some (VInt x); Some (VInt y)] => Some (VBool (bool_decide (x < y)))
          | _ => None end
  | Eq => match vs with
          | [Some (VInt x); Some (VInt y)] => Some (VBool (bool_decide (x = y)))
          | _ => None end
  | Sub => match vs with
          | [Some (VInt x); Some (VInt y)] => Some (VInt (x - y))
          | _ => None end
  | Ite => match vs with
          | [Some (VBool c); Some (VInt x); Some (VInt y)] =>
              Some (VInt (if c then x else y))
          | [Some (VBool c); Some (VBool x); Some (VBool y)] =>
              Some (VBool (if c then x else y))
          | _ => None end
  end.

Definition assignment := var → Z.

Fixpoint eval (a : assignment) (t : term) : option value :=
  match t with
  | Num z => Some (VInt z)
  | Var v => Some (VInt (a v))
  | TTrue => Some (VBool true)
  | App o args => apply_op o (map (eval a) args)
  end.

Definition holds (a : assignment) (t : term) : Prop :=
  eval a t = Some (VBool true).

(** The assertions of a script, in order. *)
Definition assertions (s : list command) : list term :=
  omap (λ c, match c with Assert t => Some t | _ => None end) s.

(** [a] is a model of the script: every assertion evaluates to [true]. *)
Definition models (a : assignment) (s : list command) : Prop :=
  ∀ t, Assert t ∈ s → holds a t.

Definition holdsb (a : assignment) (t : term) : bool :=
  match eval a t with Some (VBool true) => true | _ => false end.

Definition modelsb (a : assignment) (s : list command) : bool :=
  forallb (holdsb a) (assertions s).

Definition satisfiable (s : list command) : Prop := ∃ a, models a s.

End SMT.

Import SMT.

(* ===================================================================== *)
(** * SMT/src/build_models_z3.py                                          *)
(* ===================================================================== *)

Module Encoder.

Definition root_path : string := "./SMT".

Section build.
Variables (W N : Z) (widths heights : list Z).

Definition x_ (i : nat) : term := Var (coord_x i).
Definition y_ (i : nat) : term := Var (coord_y i).
Definition l_ : term := Var l_var.

(** [[widths[i]*heights[i] for i in range(N)]] (lines 25 and 74) *)
Definition areas : result (list Z) :=
  mapM (λ i, w ← index widths i; h ← index heights i; Ok (w * h)) (range N).

(** line 25 *)
Definition l_low : result Z := a ← areas; ceil_div (sum a) W.
(** line 26 *)
Definition l_up : Z := sum heights.

(** lines 33-35 *)
Definition declarations : list command :=
  map (λ i, DeclareInt (coord_x i)) (range N)
  ++ map (λ i, DeclareInt (coord_y i)) (range N)
  ++ [DeclareInt l_var].

(** line 38 *)
Definition domain_x (i : nat) : result command :=
  m ← min widths;
  Ok (Assert (App And [App Ge [x_ i; Num 0]; App Le [x_ i; Num (W - m)]])).
(** line 39 *)
Definition domain_y (i : nat) : result command :=
  m ← min heights;
  Ok (Assert (App And [App Ge [y_ i; Num 0]; App Le [y_ i; Num (l_up - m)]])).
(** line 40 *)
Definition domain_l (lo : Z) : command :=
  Assert (App And [App Ge [l_; Num lo]; App Le [l_; Num l_up]]).

(** lines 47-50 *)
Definition non_overlap (p : nat * nat) : result command :=
  let '(i, j) := p in
  wi ← index widths i; hi ← index heights i;
  wj ← index widths j; hj ← index heights j;
  Ok (Assert (App Or [App Le [App Add [x_ i; Num wi]; x_ j];
                      App Le [App Add [y_ i; Num hi]; y_ j];
                      App Ge [App Sub [x_ i; Num wj]; x_ j];
                      App Ge [App Sub [y_ i; Num hj]; y_ j]])).

(** line 54 *)
Definition boundary (i : nat) : result command :=
  wi ← index widths i; hi ← index heights i;
  Ok (Assert (App And [App Le [App Add [x_ i; Num wi]; Num W];
                       App Le [App Add [y_ i; Num hi]; l_]])).

(** lines 59-60: one assertion for the level [w] *)
Definition cumulative_w (w : Z) : result command :=
  sum_var ← mapM (λ i, hi ← index heights i; wi ← index widths i;
                   Ok (App Ite [App And [App Le [y_ i; Num w];
                                         App Lt [Num w; App Add [y_ i; Num hi]]];
                                Num wi; Num 0])) (range N);
  Ok (Assert (App Le [App Add sum_var; Num W])).

(** lines 63-64: one assertion for the level [h] *)
Definition cumulative_h (h : Z) : result command :=
  sum_var ← mapM (λ i, wi ← index widths i; hi ← index heights i;
                   Ok (App Ite [App And [App Le [x_ i; Num h];
                                         App Lt [Num h; App Add [x_ i; Num wi]]];
                                Num hi; Num 0])) (range N);
  Ok (Assert (App Le [App Add sum_var; l_])).

(** line 70 *)
Definition same_size (p : nat * nat) : result command :=
  let '(i, j) := p in
  wi ← index widths i; wj ← index widths j;
  hi ← index heights i; hj ← index heights j;
  Ok (Assert (App Ite [App And [App Eq [Num wi; Num wj]; App Eq [Num hi; Num hj]];
                       App Le [x_ i; x_ j]; TTrue])).

(** lines 74-75 *)
Definition max_area_ind : result nat :=
  a ← areas; m ← max a; list_index m a.

(** lines 76-77 *)
Definition origin (k : nat) : list command :=
  [Assert (App Eq [x_ k; Num 0]); Assert (App Eq [y_ k; Num 0])].

(** lines 24-80: the list [lines], before it is written out. *)
Definition build_SMTLIB_script (logic : string) : result (list command) :=
  lo ← l_low;
  let lines := [SetLogic logic] in
  let lines := lines ++ declarations in
  dx ← mapM domain_x (range N); let lines := lines ++ dx in
  dy ← mapM domain_y (range N); let lines := lines ++ dy in
  let lines := lines ++ [domain_l lo] in
  no ← mapM non_overlap (pairs_lt N); let lines := lines ++ no in
  bd ← mapM boundary (range N); let lines := lines ++ bd in
  cw ← mapM cumulative_w widths; let lines := lines ++ cw in
  ch ← mapM cumulative_h heights; let lines := lines ++ ch in
  ss ← mapM same_size (pairs_lt N); let lines := lines ++ ss in
  k ← max_area_ind;
  let lines := lines ++ origin k in
  let lines := lines ++ [CheckSat] in
  let lines := lines ++ [GetModel] in
  Ok lines.

Definition build_SMTLIB_lines (logic : string) : result (list string) :=
  s ← build_SMTLIB_script logic; Ok (map render_command s).

End build.

(** A file system: the text stored at each path. *)
Abbreviation files := (gmap string string).

Definition model_path : string := root_path +:+ "/src/model.smt2".

(** lines 82-84: [open(..., "w+")] truncates, then each line is written
    followed by a newline. *)
Definition write_lines (path : string) (lines : list string) (fs : files) : files :=
  <[path := String.concat "" (map (λ line, line +:+ String "010"%char "") lines)]> fs.

(** [build_SMTLIB_model(W, N, widths, heights, logic)] run on a file system;
    the function returns [None], so the result is the new file system, or the
    exception raised before anything is written. The directory
    [./SMT/src] is the one the program itself lives in and is taken to
    exist and to be writable. *)
Definition build_SMTLIB_model (W N : Z) (widths heights : list Z)
    (logic : string) (fs : files) : result files :=
  lines ← build_SMTLIB_lines W N widths heights logic;
  Ok (write_lines model_path lines fs).

End Encoder.

Import Encoder.


(* ===================================================================== *)
(** * Output and the solution record                                      *)
(* ===================================================================== *)

Module Data.

(** Modelled from the spec: [utils/types.py] is not among the sources; the
    specification (section 3) gives the five statuses. *)
Inductive StatusEnum := OPTIMAL | FEASIBLE | NO_SOLUTION_FOUND | ERROR | INFEASIBLE.

#[global] Instance StatusEnum_eq_dec : EqDecision StatusEnum.
Proof. solve_decision. Defined.

(** Modelled from the spec: a status is admissible when it is [OPTIMAL] or
    [FEASIBLE]; an unset status is not. *)
Definition SOLUTION_ADMISSABLE (st : option StatusEnum) : bool :=
  match st with
  | Some OPTIMAL | Some FEASIBLE => true
  | _ => false
  end.

(** [coords = {"x": [...], "y": [...]}]; an entry is [None] until the decode
    loop assigns it. *)
Record Coords := { cx : list (option Z); cy : list (option Z) }.

(** Modelled from the spec: the fields of [Solution] (section 3). Every field
    may hold [None]; the values [Solution()] starts with are not in the
    sources and are a parameter wherever they matter. Times are Python
    floats, here rationals. *)
Record Solution := {
  status : option StatusEnum;
  input_name : option string;
  width : option Z;
  n_circuits : option Z;
  circuits : option (list (list Z));
  height : option Z;
  solve_time : option Q;
  coords : option Coords;
  rotation : option (list bool)
}.

Definition set_status (st : StatusEnum) (s : Solution) : Solution :=
  {| status := Some st; input_name := input_name s; width := width s;
     n_circuits := n_circuits s; circuits := circuits s; height := height s;
     solve_time := solve_time s; coords := coords s; rotation := rotation s |}.
Definition set_input_name (x : string) (s : Solution) : Solution :=
  {| status := status s; input_name := Some x; width := width s;
     n_circuits := n_circuits s; circuits := circuits s; height := height s;
     solve_time := solve_time s; coords := coords s; rotation := rotation s |}.
Definition set_width (x : Z) (s : Solution) : Solution :=
  {| status := status s; input_name := input_name s; width := Some x;
     n_circuits := n_circuits s; circuits := circuits s; height := height s;
     solve_time := solve_time s; coords := coords s; rotation := rotation s |}.
Definition set_n_circuits (x : Z) (s : Solution) : Solution :=
  {| status := status s; input_name := input_name s; width := width s;
     n_circuits := Some x; circuits := circuits s; height := height s;
     solve_time := solve_time s; coords := coords s; rotation := rotation s |}.
Definition set_circuits (x : list (list Z)) (s : Solution) : Solution :=
  {| status := status s; input_name := input_name s; width := width s;
     n_circuits := n_circuits s; circuits := Some x; height := height s;
     solve_time := solve_time s; coords := coords s; rotation := rotation s |}.
Definition set_height (x : Z) (s : Solution) : Solution :=
  {| status := status s; input_name := input_name s; width := width s;
     n_circuits := n_circuits s; circuits := circuits s; height := Some x;
     solve_time := solve_time s; coords := coords s; rotation := rotation s |}.
Definition set_solve_time (x : Q) (s : Solution) : Solution :=
  {| status := status s; input_name := input_name s; width := width s;
     n_circuits := n_circuits s; circuits := circuits s; height := height s;
     solve_time := Some x; coords := coords s; rotation := rotation s |}.
Definition set_coords (x : Coords) (s : Solution) : Solution :=
  {| status := status s; input_name := input_name s; width := width s;
     n_circuits := n_circuits s; circuits := circuits s; height := height s;
     solve_time := solve_time s; coords := Some x; rotation := rotation s |}.
Definition set_rotation (x : option (list bool)) (s : Solution) : Solution :=
  {| status := status s; input_name := input_name s; width := width s;
     n_circuits := n_circuits s; circuits := circuits s; height := height s;
     solve_time := solve_time s; coords := coords s; rotation := x |}.

(** What the program does to the outside, in order. *)
Inductive event :=
  | Printed (line : string)                       (* [print(line)] *)
  | LogUnexpected (err : exn)                   (* [logging.error(f"Unexpected {err}")] *)
  | Plot (sol : Solution) (plot_file : string). (* [plot_solution(sol, plot_file)] *)

(** A computation: the events it produced, and its result or the exception
    that ended it. *)
Definition io (A : Type) : Type := list event * result A.

#[global] Instance io_ret : MRet io := λ A a, ([], Ok a).
#[global] Instance io_bind : MBind io := λ A B f m,
  match m with
  | (t, Ok a) => let '(t', r) := f a in (t ++ t', r)
  | (t, Raise e) => (t, Raise e)
  end.

Definition emit (e : event) : io unit := ([e], Ok ()).
Definition raise {A} (e : exn) : io A := ([], Raise e).
Definition lift {A} (r : result A) : io A := ([], r).

(** [for x in l: body(x)] *)
Fixpoint for_ {A} (l : list A) (body : A → io unit) : io unit :=
  match l with
  | [] => mret ()
  | x :: l => body x;; for_ l body
  end.

End Data.

Import Data.

(* ===================================================================== *)
(** * utils/solution_log.py                                               *)
(* ===================================================================== *)

Module Reporter.

Definition FEASIBLE_MSG := "A solution has been found, but not an optimal one".
Definition OPTIMAL_MSG := "Optimal solution has been found".
Definition NO_SOLUTION_MSG := "No solution has been found".
Definition GENERIC_MSG := "Infeasible solution".
Definition ERROR_MSG := "Error during execution".

(** The message of lines 13-22. *)
Definition status_message (st : option StatusEnum) : string :=
  if decide (st = Some FEASIBLE) then FEASIBLE_MSG
  else if decide (st = Some OPTIMAL) then OPTIMAL_MSG
  else if decide (st = Some NO_SOLUTION_FOUND) then NO_SOLUTION_MSG
  else if decide (st = Some ERROR) then ERROR_MSG
  else GENERIC_MSG.

(** [str(x)] in an f-string, for a value that may be [None]. *)
Definition str_opt {A} (str : A → string) (x : option A) : string :=
  match x with
  | Some a => str a
  | None => "None"
  end.

(** [x[i]] where [x] may be [None]. *)
Definition subscript {A} (x : option (list A)) (i : nat) : result A :=
  match x with
  | Some l => index l i
  | None => Raise TypeError
  end.

Section print_logging.
(** Python's formatting of a float, which the model does not spell out. *)
Variable str_float : Q → string.

Definition solved_line (solution : Solution) : string :=
  "Solved " +:+ str_opt (λ x : string, x) (input_name solution)
  +:+ " with W=" +:+ str_opt pretty (width solution)
  +:+ " and H=" +:+ str_opt pretty (height solution).

Definition time_line (solution : Solution) : string :=
  "Time: " +:+ str_opt str_float (solve_time solution).

(** [solution.rotation and solution.rotation[i]]: an empty or unset
    rotation list is falsy and [rotation[i]] is then not evaluated. *)
Definition rotated (solution : Solution) (i : nat) : result bool :=
  match rotation solution with
  | None | Some [] => Ok false
  | Some r => index r i
  end.

(** The f-string of lines 34-35, its fields evaluated left to right. *)
Definition geometry_line (solution : Solution) (i : nat) : result string :=
  r1 ← rotated solution i;
  c1 ← subscript (circuits solution) i;
  a ← index c1 (if (r1 : bool) then 1 else 0)%nat;
  r2 ← rotated solution i;
  c2 ← subscript (circuits solution) i;
  b ← index c2 (if (r2 : bool) then 0 else 1)%nat;
  c ← match coords solution with Some c => Ok c | None => Raise TypeError end;
  x ← index (cx c) i;
  c' ← match coords solution with Some c => Ok c | None => Raise TypeError end;
  y ← index (cy c') i;
  Ok (pretty a +:+ " " +:+ pretty b +:+ ", "
      +:+ str_opt pretty x +:+ " " +:+ str_opt pretty y).

(** [print_logging(solution)], lines 12-37. *)
Definition print_logging (solution : Solution) : io unit :=
  emit (Printed (status_message (status solution)));;
  if SOLUTION_ADMISSABLE (status solution) then
    emit (Printed (solved_line solution));;
    emit (Printed (time_line solution));;
    n ← lift (match n_circuits solution with
              | Some n => Ok n
              | None => Raise TypeError
              end);
    for_ (range n) (λ i,
      line ← lift (geometry_line solution i);
      emit (Printed line))
  else mret ().
End print_logging.

End Reporter.

Import Reporter.

(* ===================================================================== *)
(** * MIP/src/model.py                                                    *)
(* ===================================================================== *)

Module MIP.

(** Modelled from the spec: the two formulations of section 4.2, the members
    of [ModelType] that [model.py] names. *)
Inductive ModelType := BASE | ROTATION.
(** The members of [SolverMIP] that [model.py] names. *)
Inductive SolverMIP := CPLEX | MOSEK | MINIZINC.

#[global] Instance ModelType_eq_dec : EqDecision ModelType.
Proof. solve_decision. Defined.
#[global] Instance SolverMIP_eq_dec : EqDecision SolverMIP.
Proof. solve_decision. Defined.

(** A variable of a solved program: [v.name] and [v.varValue]. *)
Record LpVariable := { name : string; varValue : option Q }.

(** What [run_mip_solver] reads from [prob] after [prob.solve(solver)]. *)
Record Solved := {
  sol_status : Z;
  solutionTime : Q;
  objective_value : option Q;      (* [pulp.value(prob.objective)] *)
  variables : list LpVariable
}.

(** [round(x)] of a float: to the nearest integer, ties to the even one;
    [TypeError] for [None]. *)
Definition round_half_even (q : Q) : Z :=
  let f := Qfloor q in
  match Qcompare (q - inject_Z f) (1 # 2) with
  | Datatypes.Lt => f
  | Datatypes.Gt => f + 1
  | Datatypes.Eq => if Z.even f then f else f + 1
  end.

Definition round (x : option Q) : result Z :=
  match x with
  | Some q => Ok (round_half_even q)
  | None => Raise TypeError
  end.

(** [s[n:]] *)
Fixpoint str_from (n : nat) (s : string) : string :=
  match n, s with
  | O, _ => s
  | S n, String _ s => str_from n s
  | S _, EmptyString => EmptyString
  end.

(** [s.startswith(p)] *)
Definition startswith (p s : string) : bool := String.prefix p s.

(** [s.rsplit("/", maxsplit=1)]: split at the last slash, if any. *)
Fixpoint rsplit_slash (s : string) : list string :=
  match s with
  | EmptyString => [EmptyString]
  | String c rest =>
      match rsplit_slash rest with
      | [a; b] => [String c a; b]
      | _ => if Ascii.eqb c "/" then [EmptyString; rest] else [s]
      end
  end.

(** [l[i] = x] for a Python int [i]: a negative index counts from the end. *)
Definition setitem {A} (l : list A) (i : Z) (x : A) : result (list A) :=
  let n := Z.of_nat (length l) in
  if decide (0 ≤ i < n) then Ok (<[Z.to_nat i := x]> l)
  else if decide (- n ≤ i < 0) then Ok (<[Z.to_nat (n + i) := x]> l)
  else Raise IndexError.

(** An argument of a call. *)
Inductive pyarg := ArgSolution (s : Solution) | ArgBool (b : bool).

(** A function defined with [def]: its number of positional parameters and
    its body. A call with another number of arguments raises [TypeError]
    before the body runs. *)
Record pyfunction := { params : nat; body : list pyarg → io unit }.

Definition call (f : pyfunction) (args : list pyarg) : io unit :=
  if decide (length args = params f) then body f args else raise TypeError.

(** The collaborators that are not among the sources, each given by what it
    returns or raises: the path helpers, the instance loader, the two
    program builders, the solver configurations, [prob.solve(solver)],
    [StatusEnum(prob.sol_status)], [compute_solve_time], Python's [int(s)]
    on a string, the fresh [Solution()], [run_minizinc], and Python's
    formatting of a float. *)
Class Collaborators := {
  Prob : Type;
  Solver : Type;
  format_data_file : string → result string;
  extract_input_from_txt : string → string → result (Z * Z * list Z * list Z);
  build_pulp_model : Z → Z → list Z → list Z → result Prob;
  build_pulp_rotation_model : Z → Z → list Z → list Z → result Prob;
  configure_cplex_solver : Z → result Solver;
  configure_mosek_solver : Z → result Solver;
  solve : Prob → Solver → result Solved;
  StatusEnum_of : Z → result StatusEnum;
  compute_solve_time : Q → result Q;
  int_of_str : string → result Z;
  Solution_new : Solution;
  format_plot_file : string → ModelType → result string;
  run_minizinc : string → ModelType → Z → result Solution;
  str_float : Q → string
}.

Section model.
Context `{E : Collaborators}.

(** The state of the decode loop: [coords["x"]], [coords["y"]], [rotation]. *)
Definition decode_state : Type := list (option Z) * list (option Z) * list bool.

(** The body of the loop of lines 83-90 for the variable [v]. In an
    assignment [a[i] = e] the value [e] is evaluated before the index. *)
Definition decode_variable (st : decode_state) (v : LpVariable)
    : result decode_state :=
  let '(xs, ys, rot) := st in
  if startswith "coord_x" (name v) then
    r ← round (varValue v);
    i ← int_of_str (str_from 8 (name v));
    xs' ← setitem xs i (Some r);
    Ok (xs', ys, rot)
  else if startswith "coord_y" (name v) then
    r ← round (varValue v);
    i ← int_of_str (str_from 8 (name v));
    ys' ← setitem ys i (Some r);
    Ok (xs, ys', rot)
  else if startswith "rot" (name v) then
    r ← round (varValue v);
    i ← int_of_str (str_from 4 (name v));
    rot' ← setitem rot i (bool_decide (r ≠ 0));
    Ok (xs, ys, rot')
  else Ok st.

Fixpoint decode_variables (st : decode_state) (vs : list LpVariable)
    : result decode_state :=
  match vs with
  | [] => Ok st
  | v :: vs => st' ← decode_variable st v; decode_variables st' vs
  end.

(** Lines 79-95. *)
Definition decode (N : Z) (prob : Solved) (sol : Solution) : result Solution :=
  if SOLUTION_ADMISSABLE (status sol) then
    h ← round (objective_value prob);
    let sol := set_height h sol in
    let rotation := replicate (Z.to_nat N) false in
    let xs := replicate (Z.to_nat N) None in
    let ys := replicate (Z.to_nat N) None in
    '(xs, ys, rotation) ← decode_variables (xs, ys, rotation) (variables prob);
    let sol := set_coords {| cx := xs; cy := ys |} sol in
    let sol :=
      set_rotation (if decide (0 < length rotation)%nat then Some rotation
                    else None) sol in
    Ok sol
  else Ok sol.

(** Lines 41-67: everything before the [try]. It gives the solution with
    the instance echoed in it, [N], the program and the configured
    solver. *)
Definition prepare (input_name : string) (model_type : ModelType)
    (solver : SolverMIP) (timeout : Z) : result (Solution * Z * Prob * Solver) :=
  let sol := Solution_new in
  data_file ← format_data_file input_name;
  dir ← index (rsplit_slash data_file) 0;
  file ← index (rsplit_slash data_file) 1;
  '(W, N, widths, heights) ← extract_input_from_txt (dir +:+ "/{file}") file;
  let sol := set_input_name input_name sol in
  let sol := set_width W sol in
  let sol := set_n_circuits N sol in
  circuits ← mapM (λ i, w ← index widths i; h ← index heights i;
                     Ok [w; h]) (range N);
  let sol := set_circuits circuits sol in
  prob ← (if decide (model_type = BASE) then
            build_pulp_model W N widths heights
          else if decide (model_type = ROTATION) then
            build_pulp_rotation_model W N widths heights
          else Raise (BaseException "Model type not available"));
  solver ← (if decide (solver = CPLEX) then configure_cplex_solver timeout
            else if decide (solver = MOSEK) then configure_mosek_solver timeout
            else Raise (BaseException "Solver not available"));
  Ok (sol, N, prob, solver).

(** [run_mip_solver(input_name, model_type, solver, timeout)], lines 36-97:
    the [try] around [prob.solve(solver)] and what follows it. *)
Definition run_mip_solver (input_name : string) (model_type : ModelType)
    (solver : SolverMIP) (timeout : Z) : io Solution :=
  '(sol, N, prob, solver) ← lift (prepare input_name model_type solver timeout);
  match solve prob solver with
  | Raise err =>
      emit (LogUnexpected err);;
      let sol := set_status ERROR sol in
      mret sol
  | Ok prob =>
      st ← lift (StatusEnum_of (sol_status prob));
      let sol := set_status st sol in
      t ← lift (compute_solve_time (solutionTime prob));
      let sol := set_solve_time t sol in
      lift (decode N prob sol)
  end.

(** [print_logging] as [solution_log.py] defines it: one parameter. *)
Definition print_logging_def : pyfunction :=
  {| params := 1;
     body := λ args,
       match args with
       | [ArgSolution solution] => print_logging str_float solution
       | _ => raise AttributeError
       end |}.

(** Lines 110-123: [sol] is bound only in the two branches. *)
Definition produce_solution (input_name : string) (model_type : ModelType)
    (solver : SolverMIP) (timeout : Z) : io (option Solution) :=
  if decide (solver = MINIZINC) then
    s ← lift (run_minizinc input_name model_type timeout); mret (Some s)
  else if decide (solver = MOSEK ∨ solver = CPLEX) then
    s ← run_mip_solver input_name model_type solver timeout; mret (Some s)
  else mret None.

(** [compute_solution(input_name, model_type, solver, timeout, verbose)],
    lines 100-128. *)
Definition compute_solution (input_name : string) (model_type : ModelType)
    (solver : SolverMIP) (timeout : Z) (verbose : bool) : io Solution :=
  plot_file ← lift (format_plot_file input_name model_type);
  sol ← produce_solution input_name model_type solver timeout;
  sol ← lift (match sol with
              | Some s => Ok s
              | None => Raise UnboundLocalError
              end);
  call print_logging_def [ArgSolution sol; ArgBool verbose];;
  emit (Plot sol plot_file);;
  mret sol.
End model.

End MIP.

Import MIP.

(* ===================================================================== *)
(** * Definitions used to state the properties                            *)
(* ===================================================================== *)

(** The blocks of a script that [build_SMTLIB_script] returned. *)
Inductive blocks (W N : Z) (widths heights : list Z) (logic : string)
    (s : list command) : Prop :=
  Blocks (lo : Z) (dx dy no bd cw ch ss : list command) (k : nat)
    (b_l_low : l_low W N widths heights = Ok lo)
    (b_domain_x : mapM (domain_x W widths) (range N) = Ok dx)
    (b_domain_y : mapM (domain_y heights) (range N) = Ok dy)
    (b_non_overlap : mapM (non_overlap widths heights) (pairs_lt N) = Ok no)
    (b_boundary : mapM (boundary W widths heights) (range N) = Ok bd)
    (b_cumulative_w : mapM (cumulative_w W N widths heights) widths = Ok cw)
    (b_cumulative_h : mapM (cumulative_h N widths heights) heights = Ok ch)
    (b_same_size : mapM (same_size widths heights) (pairs_lt N) = Ok ss)
    (b_max_area_ind : max_area_ind N widths heights = Ok k)
    (b_script :
      s = [SetLogic logic] ++ declarations N ++ dx ++ dy
          ++ [domain_l heights lo] ++ no ++ bd ++ cw ++ ch ++ ss
          ++ origin k ++ [CheckSat] ++ [GetModel]).

(** The instances on which no line of [build_SMTLIB_model] raises: a
    non-zero strip width, at least one item, and a width and a height for
    each of the [N] items. *)
Definition well_formed (W N : Z) (widths heights : list Z) : Prop :=
  W ≠ 0 ∧ 1 ≤ N
  ∧ (Z.to_nat N ≤ length widths)%nat ∧ (Z.to_nat N ≤ length heights)%nat.

Section geometry.
Variables (W N : Z) (widths heights : list Z) (a : assignment).

Definition X (i : nat) : Z := a (coord_x i).
Definition Y (i : nat) : Z := a (coord_y i).
Definition w_ (i : nat) : Z := widths !!! i.
Definition h_ (i : nat) : Z := heights !!! i.

(** The four separation disjuncts of items [i] and [j]. *)
Definition separated (i j : nat) : Prop :=
  X i + w_ i ≤ X j ∨ Y i + h_ i ≤ Y j ∨ X i - w_ j >= X j ∨ Y i - h_ j >= Y j.

(** Item [i] lies in [[0,W] x [0,l]]. *)
Definition inside (i : nat) : Prop :=
  X i >= 0 ∧ Y i >= 0 ∧ X i + w_ i ≤ W ∧ Y i + h_ i ≤ a l_var.

Definition valid_placement : Prop :=
  (∀ i j, (i < j)%nat → (j < Z.to_nat N)%nat → separated i j)
  ∧ (∀ i, (i < Z.to_nat N)%nat → inside i).
End geometry.

(** Reading the value of a closed shape of term. *)
Ltac eval_holds H :=
  unfold holds in H; cbn in H;
  repeat match type of H with
  | context [bool_decide ?P] => destruct (bool_decide_reflect P)
  end; cbn in H; try discriminate H.

(** Case analysis on an innermost comparison of an evaluated term. *)
Ltac case_inner_bool_decide :=
  match goal with
  | |- context [bool_decide ?P] =>
      lazymatch P with
      | context [bool_decide _] => fail
      | _ => destruct (bool_decide_reflect P); cbn
      end
  end.

Definition area (widths heights : list Z) (i : nat) : Z :=
  w_ widths i * h_ heights i.

Section cumulative.
Variables (W N : Z) (widths heights : list Z).

(** Item [i] crosses the horizontal line at height [level]. *)
Definition crosses_y (a : assignment) (level : Z) (i : nat) : Prop :=
  Y a i ≤ level ∧ level < Y a i + h_ heights i.
(** Item [i] crosses the vertical line at abscissa [level]. *)
Definition crosses_x (a : assignment) (level : Z) (i : nat) : Prop :=
  X a i ≤ level ∧ level < X a i + w_ widths i.

#[local] Instance crosses_y_dec a level i : Decision (crosses_y a level i).
Proof. unfold crosses_y. apply _. Defined.
#[local] Instance crosses_x_dec a level i : Decision (crosses_x a level i).
Proof. unfold crosses_x. apply _. Defined.

(** Sum over the items [0..N-1] of [size i] for the items selected. *)
Definition sum_where (sel : nat → Prop) `{∀ i, Decision (sel i)}
    (size : nat → Z) : Z :=
  foldr Z.add 0 (map (λ i, if decide (sel i) then size i else 0) (range N)).

(** What lines 59-60 state for the level [w]: the widths of the items
    crossing height [w] add up to at most [W]. *)
Definition cumulative_w_holds (w : Z) (a : assignment) : Prop :=
  sum_where (crosses_y a w) (w_ widths) ≤ W.
(** What lines 63-64 state for the level [h]: the heights of the items
    crossing abscissa [h] add up to at most [l]. *)
Definition cumulative_h_holds (h : Z) (a : assignment) : Prop :=
  sum_where (crosses_x a h) (h_ heights) ≤ a l_var.

(** The two statements in the words of the specification: heights summed
    against [W], widths summed against [l]. *)
Definition spec_cumulative_w_holds (w : Z) (a : assignment) : Prop :=
  sum_where (crosses_y a w) (h_ heights) ≤ W.
Definition spec_cumulative_h_holds (h : Z) (a : assignment) : Prop :=
  sum_where (crosses_x a h) (w_ widths) ≤ a l_var.
End cumulative.

(** The term [t] states the property [P] of assignments. *)
Definition states (t : term) (P : assignment → Prop) : Prop :=
  ∀ a, holds a t ↔ P a.

(** Exactly one line of the script asserts a term stating [P]. *)
Definition asserts_once (s : list command) (P : assignment → Prop) : Prop :=
  ∃ k, (∃ t, s !! k = Some (Assert t) ∧ states t P)
       ∧ ∀ k', (∃ t, s !! k' = Some (Assert t) ∧ states t P) → k' = k.

(** The cumulative assertions are the ones of the form [(<= (+ ...) _)]. *)
Definition is_cumulative (c : command) : bool :=
  match c with
  | Assert (App Le (App Add _ :: _)) => true
  | _ => false
  end.

(** The statement of the specification about the cumulative constraints,
    for a script [s]. *)
Definition spec_cumulative (W N : Z) (widths heights : list Z)
    (s : list command) : Prop :=
  (∀ w, w ∈ widths →
        asserts_once s (spec_cumulative_w_holds W N heights w))
  ∧ (∀ h, h ∈ heights →
        asserts_once s (spec_cumulative_h_holds N widths h)).

(** The placement of the scenario: item 1 at the origin, item 0 to its
    right, strip height 5. *)
Definition scenario_assignment : assignment := λ v,
  match v with
  | coord_x 0 => 4
  | coord_x _ => 0
  | coord_y _ => 0
  | l_var => 5
  end.


(** Two unit-width items of height 3 side by side in a strip of width 2. *)
Definition side_by_side : assignment := λ v,
  match v with
  | coord_x 1 => 1
  | coord_x _ => 0
  | coord_y _ => 0
  | l_var => 3
  end.

(** The statement of the specification about the reporter: the status
    message and the solve time are printed whatever the status, a geometry
    line is printed exactly when the status is admissible. *)
Definition spec_print_logging (str_float : Q → string) (sol : Solution) : Prop :=
  let t := (print_logging str_float sol).1 in
  Printed (status_message (status sol)) ∈ t
  ∧ Printed (time_line str_float sol) ∈ t
  ∧ ((∃ i line, geometry_line sol i = Ok line ∧ Printed line ∈ t)
     ↔ SOLUTION_ADMISSABLE (status sol) = true).

(** A solution as the error path of [run_mip_solver] leaves it. *)
Definition failed_solution : Solution :=
  {| status := Some ERROR; input_name := Some "ins-1"; width := Some 8;
     n_circuits := Some 2; circuits := Some [[4; 3]; [4; 5]];
     height := None; solve_time := None; coords := None; rotation := None |}.

(** A concrete set of collaborators, for the examples. [int] on a string
    of ASCII decimal digits: *)
Fixpoint decimal_go (acc : Z) (s : string) : result Z :=
  match s with
  | EmptyString => Ok acc
  | String c s =>
      let d := Z.of_N (N_of_ascii c) - 48 in
      if decide (0 ≤ d ≤ 9) then decimal_go (10 * acc + d) s
      else Raise ValueError
  end.
Definition decimal (s : string) : result Z :=
  match s with
  | EmptyString => Raise ValueError
  | _ => decimal_go 0 s
  end.

Definition unset_solution : Solution :=
  {| status := None; input_name := None; width := None; n_circuits := None;
     circuits := None; height := None; solve_time := None; coords := None;
     rotation := None |}.

(** The instance of the scenario, loaded from [ins-1.txt]; the solver ends
    with [outcome]. *)
Definition scenario_collaborators (outcome : result Solved) : Collaborators :=
  {| Prob := unit; Solver := unit;
     format_data_file := λ n, Ok ("./vlsi-instances/txt-instances/" +:+ n +:+ ".txt");
     extract_input_from_txt := λ _ _, Ok (8, 2, [4; 4], [3; 5]);
     build_pulp_model := λ _ _ _ _, Ok ();
     build_pulp_rotation_model := λ _ _ _ _, Ok ();
     configure_cplex_solver := λ _, Ok ();
     configure_mosek_solver := λ _, Ok ();
     solve := λ _ _, outcome;
     StatusEnum_of := λ c,
       if decide (c = 1) then Ok OPTIMAL
       else if decide (c = 2) then Ok FEASIBLE
       else if decide (c = 0) then Ok NO_SOLUTION_FOUND
       else if decide (c = -1) then Ok INFEASIBLE
       else Raise ValueError;
     compute_solve_time := λ t, Ok t;
     int_of_str := decimal;
     Solution_new := unset_solution;
     format_plot_file := λ n _, Ok ("./MIP/out/plots/" +:+ n);
     run_minizinc := λ _ _ _, Raise (External "minizinc");
     str_float := λ _, "0.0" |}.

(** The solved base program of the scenario: near-integral values. *)
Definition scenario_solved : Solved :=
  {| sol_status := 1; solutionTime := 1 # 4; objective_value := Some (5 # 1);
     variables := [ {| name := "coord_x_0"; varValue := Some (4 # 1) |};
                    {| name := "coord_x_1"; varValue := Some (0 # 1) |};
                    {| name := "coord_y_0"; varValue := Some (1 # 1000000) |};
                    {| name := "coord_y_1"; varValue := Some (0 # 1) |};
                    {| name := "l"; varValue := Some (5 # 1) |} ] |}.

(** Modelled from the spec: [create_model.py] is not among the sources;
    section 4.2 adds a variable [rot_i] per item only when rotation is
    enabled, so no variable of a solved base program has a name starting
    with [rot]. *)
Definition base_model_without_rot `{E : Collaborators} : Prop :=
  ∀ W N widths heights prob slv solved v,
    build_pulp_model W N widths heights = Ok prob →
    solve prob slv = Ok solved →
    v ∈ variables solved → startswith "rot" (name v) = false.

(* ===================================================================== *)
(** * Further definitions: the assertions of a script, cell by cell       *)
(* ===================================================================== *)

(** The assertions that [build_SMTLIB_model] appends for an instance, one
    constructor per appending line of the source. *)
Inductive assertion_of (W N : Z) (widths heights : list Z) : term → Prop :=
  | A_domain_x i m :
      (i < Z.to_nat N)%nat → min widths = Ok m →
      assertion_of W N widths heights
        (App And [App Ge [x_ i; Num 0]; App Le [x_ i; Num (W - m)]])
  | A_domain_y i m :
      (i < Z.to_nat N)%nat → min heights = Ok m →
      assertion_of W N widths heights
        (App And [App Ge [y_ i; Num 0]; App Le [y_ i; Num (l_up heights - m)]])
  | A_domain_l lo :
      l_low W N widths heights = Ok lo →
      assertion_of W N widths heights
        (App And [App Ge [l_; Num lo]; App Le [l_; Num (l_up heights)]])
  | A_non_overlap i j :
      (i < j)%nat → (j < Z.to_nat N)%nat →
      assertion_of W N widths heights
        (App Or [App Le [App Add [x_ i; Num (w_ widths i)]; x_ j];
                 App Le [App Add [y_ i; Num (h_ heights i)]; y_ j];
                 App Ge [App Sub [x_ i; Num (w_ widths j)]; x_ j];
                 App Ge [App Sub [y_ i; Num (h_ heights j)]; y_ j]])
  | A_boundary i :
      (i < Z.to_nat N)%nat →
      assertion_of W N widths heights
        (App And [App Le [App Add [x_ i; Num (w_ widths i)]; Num W];
                  App Le [App Add [y_ i; Num (h_ heights i)]; l_]])
  | A_cumulative_w w t :
      w ∈ widths → cumulative_w W N widths heights w = Ok (Assert t) →
      assertion_of W N widths heights t
  | A_cumulative_h h t :
      h ∈ heights → cumulative_h N widths heights h = Ok (Assert t) →
      assertion_of W N widths heights t
  | A_same_size i j :
      (i < j)%nat → (j < Z.to_nat N)%nat →
      assertion_of W N widths heights
        (App Ite [App And [App Eq [Num (w_ widths i); Num (w_ widths j)];
                           App Eq [Num (h_ heights i); Num (h_ heights j)]];
                  App Le [x_ i; x_ j]; TTrue])
  | A_origin_x k :
      max_area_ind N widths heights = Ok k →
      assertion_of W N widths heights (App Eq [x_ k; Num 0])
  | A_origin_y k :
      max_area_ind N widths heights = Ok k →
      assertion_of W N widths heights (App Eq [y_ k; Num 0]).

(** Item [i] covers the unit cell whose lower left corner is [(p, q)]. *)
Definition covers (widths heights : list Z) (a : assignment) (i : nat)
    (p q : Z) : Prop :=
  X a i ≤ p < X a i + w_ widths i ∧ Y a i ≤ q < Y a i + h_ heights i.

(** The constants that occur in a term. *)
Fixpoint term_vars (t : term) : list var :=
  match t with
  | Var v => [v]
  | App _ args => concat (map term_vars args)
  | _ => []
  end.

(** The constants a script declares, in order. *)
Definition declared (s : list command) : list var :=
  omap (λ c, match c with DeclareInt v => Some v | _ => None end) s.

(** [a] satisfies the assertions of [s] other than the cumulative ones. *)
Definition models_without_cumulative (a : assignment) (s : list command) : Prop :=
  ∀ t, Assert t ∈ s → is_cumulative (Assert t) = false → holds a t.

(** Intervals [[start, start + length)] given as pairs; two of them are
    apart when one ends before the other starts. *)
Definition interval_sep (p q : Z * Z) : Prop :=
  p.1 + p.2 ≤ q.1 ∨ q.1 + q.2 ≤ p.1.

Fixpoint pairwise_sep (l : list (Z * Z)) : Prop :=
  match l with
  | [] => True
  | p :: l => Forall (interval_sep p) l ∧ pairwise_sep l
  end.

Definition total_length (l : list (Z * Z)) : Z := foldr Z.add 0 (map snd l).



(** The two coordinate lists that the decode loop fills. *)
Inductive coord_field := CX | CY.

Definition entries (f : coord_field) (st : decode_state) : list (option Z) :=
  match f with
  | CX => st.1.1
  | CY => st.1.2
  end.

(** The position of a list of [n] entries that [l[i] = x] assigns, if any. *)
Definition position (n : nat) (i : Z) : option nat :=
  if decide (0 ≤ i < Z.of_nat n) then Some (Z.to_nat i)
  else if decide (- Z.of_nat n ≤ i < 0) then Some (Z.to_nat (Z.of_nat n + i))
  else None.

(** The position of the list [f], of [n] entries, that the loop body of
    lines 85-88 assigns for the variable [v], if any. *)
Definition writes `{E : Collaborators} (f : coord_field) (n : nat)
    (v : LpVariable) : option nat :=
  let target :=
    match int_of_str (str_from 8 (name v)) with
    | Ok i => position n i
    | Raise _ => None
    end in
  if startswith "coord_x" (name v) then
    match f with CX => target | CY => None end
  else if startswith "coord_y" (name v) then
    match f with CX => None | CY => target end
  else None.

(* ===================================================================== *)
(** * utils/solution_log.py: [save_solution]                              *)
(* ===================================================================== *)

Module Saver.

(** [out_path.format(root=root, model=model, file=file)] for
    [out_path = "{root}/out/{model}/{file}"]. *)
Definition out_path (root model file : string) : string :=
  root +:+ "/out/" +:+ model +:+ "/" +:+ file.

(** [s.replace("ins", "out")]: every occurrence, scanning from the left. *)
Fixpoint replace_ins_out (s : string) : string :=
  match s with
  | String "i" (String "n" (String "s" rest)) => "out" +:+ replace_ins_out rest
  | String c rest => String c (replace_ins_out rest)
  | EmptyString => EmptyString
  end.

Definition newline : string := String "010"%char "".

(** The comprehension of line 45: one row per item. *)
Definition rows (N : Z) (widths heights cx cy : list Z) : result (list string) :=
  mapM (λ i, w ← index widths i; h ← index heights i;
             x ← index cx i; y ← index cy i;
             Ok (pretty w +:+ " " +:+ pretty h +:+ " " +:+ pretty x +:+ " "
                 +:+ pretty y +:+ newline)) (range N).

(** [save_solution(root, model, file_name, data)], lines 40-48, on a file
    system: the rows are built before the file is opened, and
    [open(..., "w+")] truncates. The result is the file system afterwards
    and [None] or the exception raised. The directory of [out_file] is taken
    to exist. *)
Definition save_solution (root model file_name : string)
    (data : Z * Z * Z * list Z * list Z * list Z * list Z) (fs : files)
    : files * result unit :=
  let file_name := replace_ins_out file_name in
  let out_file := out_path root model file_name in
  let '(W, N, l, widths, heights, cx, cy) := data in
  match rows N widths heights cx cy with
  | Raise e => (fs, Raise e)
  | Ok lines =>
      (<[out_file :=
           String.concat "" ([pretty W +:+ " " +:+ pretty l +:+ newline;
                              pretty N +:+ newline] ++ lines)]> fs,
       Ok ())
  end.

End Saver.

Import Saver.

(* ===================================================================== *)
(** * MIP/src/model.py: [compute_tests]                                   *)
(* ===================================================================== *)

Module Batch.

(** What the batch does to the outside: what [compute_solution] does, and
    the calls of [save_statistics]. *)
Inductive batch_event :=
  | Core (e : event)
  | SaveStatistics (path : string) (sol : Solution).

Definition bio (A : Type) : Type := list batch_event * result A.

#[global] Instance bio_ret : MRet bio := λ A a, ([], Ok a).
#[global] Instance bio_bind : MBind bio := λ A B f m,
  match m with
  | (t, Ok a) => let '(t', r) := f a in (t ++ t', r)
  | (t, Raise e) => (t, Raise e)
  end.

Definition of_io {A} (m : io A) : bio A := (map Core m.1, m.2).
Definition of_result {A} (r : result A) : bio A := ([], r).
Definition record (e : batch_event) : bio unit := ([e], Ok ()).

(** [for i in l: body(i)] *)
Fixpoint for_each {A} (l : list A) (body : A → bio unit) : bio unit :=
  match l with
  | [] => mret ()
  | x :: l => body x;; for_each l body
  end.

(** The collaborators of the batch that are not among the sources, each
    given by what it returns or raises; [checking_instances] by the
    instances its iterator yields. *)
Class BatchCollaborators := {
  checking_instances : list Z → result (list Z);
  format_statistic_file : list Z → ModelType → SolverMIP → result string;
  save_statistics : string → Solution → result unit
}.

(** [status.name] of an enumeration member. *)
Definition status_name (st : StatusEnum) : string :=
  match st with
  | OPTIMAL => "OPTIMAL"
  | FEASIBLE => "FEASIBLE"
  | NO_SOLUTION_FOUND => "NO_SOLUTION_FOUND"
  | ERROR => "ERROR"
  | INFEASIBLE => "INFEASIBLE"
  end.

Section compute_tests.
Context `{E : Collaborators} `{B : BatchCollaborators}.

(** The f-string of line 147. *)
Definition computed_line (i : Z) (sol : Solution) : result string :=
  nm ← match status sol with
       | Some st => Ok (status_name st)
       | None => Raise AttributeError
       end;
  Ok (newline +:+ "- Computed instance " +:+ pretty i +:+ ": " +:+ nm +:+ " "
      +:+ (if SOLUTION_ADMISSABLE (status sol)
           then "in time " +:+ str_opt str_float (solve_time sol)
           else "")).

(** [compute_tests(test_instances, model_type, solver, timeout, verbose)],
    lines 131-148. *)
Definition compute_tests (test_instances : list Z) (model_type : ModelType)
    (solver : SolverMIP) (timeout : Z) (verbose : bool) : bio unit :=
  test_iterator ← of_result (checking_instances test_instances);
  statistics_path ←
    of_result (format_statistic_file test_instances model_type solver);
  for_each test_iterator (λ i,
    sol ← of_io (compute_solution ("ins-" +:+ pretty i) model_type solver
                   timeout verbose);
    record (SaveStatistics statistics_path sol);;
    of_result (save_statistics statistics_path sol);;
    line ← of_result (computed_line i sol);
    record (Core (Printed line))).
End compute_tests.

End Batch.

Import Batch.

(** ["ins" in s] *)
Fixpoint contains_ins (s : string) : bool :=
  match s with
  | EmptyString => false
  | String _ rest => String.prefix "ins" s || contains_ins rest
  end.

(* ===================================================================== *)
(** * Lemmas on the runtime                                               *)
(* ===================================================================== *)

Lemma bind_Ok {A B} (m : result A) (f : A → result B) b :
  m ≫= f = Ok b ↔ ∃ a, m = Ok a ∧ f a = Ok b.
Proof.
  destruct m as [a|e]; simpl; split.
  - eauto.
  - by intros (a' & [= <-] & ?).
  - done.
  - by intros (a' & ? & _).
Qed.

Section result_lemmas.
Context {A B : Type}.

Lemma mapM_Ok (f : A → result B) l k :
  mapM f l = Ok k ↔ Forall2 (λ x y, f x = Ok y) l k.
Proof.
  revert k. induction l as [|x l IH]; intros k; simpl.
  - split; [intros [= <-]; constructor | by inversion 1].
  - split.
    + intros (y & Hy & (k' & Hk' & [= <-])%bind_Ok)%bind_Ok.
      constructor; [done | by apply IH].
    + inversion 1 as [|? y ? k' Hy Hk']; subst.
      apply IH in Hk'. unfold mbind in *; simpl. rewrite Hy; simpl.
      by rewrite Hk'.
Qed.

Lemma mapM_Ok_elem (f : A → result B) l k x :
  mapM f l = Ok k → x ∈ l → ∃ y, f x = Ok y ∧ y ∈ k.
Proof.
  intros Hm%mapM_Ok Hx. induction Hm as [|x' y l' k' Hxy _ IH].
  - by apply elem_of_nil in Hx.
  - apply elem_of_cons in Hx as [->|Hx].
    + exists y. split; [done | apply list_elem_of_here].
    + destruct (IH Hx) as (y' & ? & ?). exists y'.
      split; [done | by apply list_elem_of_further].
Qed.

Lemma mapM_Ok_elem_inv (f : A → result B) l k y :
  mapM f l = Ok k → y ∈ k → ∃ x, x ∈ l ∧ f x = Ok y.
Proof.
  intros Hm%mapM_Ok Hy. induction Hm as [|x y' l' k' Hxy _ IH].
  - by apply elem_of_nil in Hy.
  - apply elem_of_cons in Hy as [->|Hy].
    + exists x. split; [apply list_elem_of_here | done].
    + destruct (IH Hy) as (x' & ? & ?). exists x'.
      split; [by apply list_elem_of_further | done].
Qed.

Lemma mapM_is_Ok (f : A → result B) l :
  (∀ x, x ∈ l → is_Ok (f x)) → is_Ok (mapM f l).
Proof.
  induction l as [|x l IH]; intros Hf.
  - by exists [].
  - destruct (Hf x) as [y Hy]; [apply list_elem_of_here|].
    destruct IH as [k Hk].
    { intros x' ?. apply Hf. by apply list_elem_of_further. }
    exists (y :: k). apply mapM_Ok. constructor; [done | by apply mapM_Ok].
Qed.

Lemma mapM_Ok_length (f : A → result B) l k :
  mapM f l = Ok k → length k = length l.
Proof. intros Hm%mapM_Ok. symmetry. by eapply Forall2_length. Qed.
End result_lemmas.

Lemma elem_of_range (n : Z) (i : nat) : i ∈ range n ↔ (i < Z.to_nat n)%nat.
Proof. unfold range. rewrite elem_of_seq. lia. Qed.

Lemma elem_of_pairs_lt (n : Z) (i j : nat) :
  (i, j) ∈ pairs_lt n ↔ (i < j)%nat ∧ (j < Z.to_nat n)%nat.
Proof.
  unfold pairs_lt. rewrite list_elem_of_bind. split.
  - intros (i' & (j' & Hij & Hj%elem_of_range)%list_elem_of_bind & Hi%elem_of_range).
    case_decide; [|by apply elem_of_nil in Hij].
    apply list_elem_of_singleton in Hij as [= -> ->]. lia.
  - intros [Hlt Hj]. exists i. split; [|apply elem_of_range; lia].
    apply list_elem_of_bind. exists j. split; [|by apply elem_of_range].
    rewrite decide_True by done. apply list_elem_of_singleton. done.
Qed.

Lemma index_Ok {A} (l : list A) i x : index l i = Ok x ↔ l !! i = Some x.
Proof. unfold index. destruct (l !! i); split; congruence. Qed.

Lemma index_is_Ok {A} (l : list A) i : (i < length l)%nat → is_Ok (index l i).
Proof.
  intros [x Hx]%lookup_lt_is_Some. exists x. by apply index_Ok.
Qed.

(* ===================================================================== *)
(** * The text of each line                                               *)
(* ===================================================================== *)

Lemma append_assoc (a b c : string) : (a +:+ b) +:+ c = a +:+ (b +:+ c).
Proof.
  induction a as [|x a IH]; [done|].
  change (String x ((a +:+ b) +:+ c) = String x (a +:+ (b +:+ c))).
  by rewrite IH.
Qed.

Local Ltac text_eq := cbn; rewrite ?append_assoc; reflexivity.

(** Each command renders to the f-string of the source line that appends
    it. *)
Section text.
Variables (W : Z) (i j : nat) (wi hi wj hj m lo up w h : Z).

Lemma render_declare_x :
  render_command (DeclareInt (coord_x i))
  = "(declare-fun coord_x" +:+ pretty i +:+ " () Int)".
Proof. reflexivity. Qed.

Lemma render_declare_y :
  render_command (DeclareInt (coord_y i))
  = "(declare-fun coord_y" +:+ pretty i +:+ " () Int)".
Proof. reflexivity. Qed.

Lemma render_domain :
  render_command
    (Assert (App And [App Ge [x_ i; Num 0]; App Le [x_ i; Num m]]))
  = "(assert (and (>= coord_x" +:+ pretty i +:+ " 0) (<= coord_x"
    +:+ pretty i +:+ " " +:+ pretty m +:+ ")))".
Proof. text_eq. Qed.

Lemma render_domain_l :
  render_command (Assert (App And [App Ge [l_; Num lo]; App Le [l_; Num up]]))
  = "(assert (and (>= l " +:+ pretty lo +:+ ") (<= l " +:+ pretty up +:+ ")))".
Proof. text_eq. Qed.

Lemma render_non_overlap :
  render_command
    (Assert (App Or [App Le [App Add [x_ i; Num wi]; x_ j];
                     App Le [App Add [y_ i; Num hi]; y_ j];
                     App Ge [App Sub [x_ i; Num wj]; x_ j];
                     App Ge [App Sub [y_ i; Num hj]; y_ j]]))
  = "(assert (or (<= (+ coord_x" +:+ pretty i +:+ " " +:+ pretty wi
    +:+ ") coord_x" +:+ pretty j +:+ ") "
    +:+ "(<= (+ coord_y" +:+ pretty i +:+ " " +:+ pretty hi
    +:+ ") coord_y" +:+ pretty j +:+ ") "
    +:+ "(>= (- coord_x" +:+ pretty i +:+ " " +:+ pretty wj
    +:+ ") coord_x" +:+ pretty j +:+ ") "
    +:+ "(>= (- coord_y" +:+ pretty i +:+ " " +:+ pretty hj
    +:+ ") coord_y" +:+ pretty j +:+ ")))".
Proof. text_eq. Qed.

Lemma render_boundary :
  render_command
    (Assert (App And [App Le [App Add [x_ i; Num wi]; Num W];
                      App Le [App Add [y_ i; Num hi]; l_]]))
  = "(assert (and (<= (+ coord_x" +:+ pretty i +:+ " " +:+ pretty wi
    +:+ ") " +:+ pretty W +:+ ") (<= (+ coord_y" +:+ pretty i +:+ " "
    +:+ pretty hi +:+ ") l)))".
Proof. text_eq. Qed.

Lemma render_cumulative_w_summand :
  render_term
    (App Ite [App And [App Le [y_ i; Num w];
                       App Lt [Num w; App Add [y_ i; Num hi]]];
              Num wi; Num 0])
  = "(ite (and (<= coord_y" +:+ pretty i +:+ " " +:+ pretty w +:+ ") (< "
    +:+ pretty w +:+ " (+ coord_y" +:+ pretty i +:+ " " +:+ pretty hi
    +:+ "))) " +:+ pretty wi +:+ " 0)".
Proof. text_eq. Qed.

Lemma render_cumulative_w (sum_var : list term) :
  render_command (Assert (App Le [App Add sum_var; Num W]))
  = "(assert (<= (+ " +:+ String.concat " " (map render_term sum_var)
    +:+ ") " +:+ pretty W +:+ "))".
Proof. text_eq. Qed.

Lemma render_cumulative_h_summand :
  render_term
    (App Ite [App And [App Le [x_ i; Num h];
                       App Lt [Num h; App Add [x_ i; Num wi]]];
              Num hi; Num 0])
  = "(ite (and (<= coord_x" +:+ pretty i +:+ " " +:+ pretty h +:+ ") (< "
    +:+ pretty h +:+ " (+ coord_x" +:+ pretty i +:+ " " +:+ pretty wi
    +:+ "))) " +:+ pretty hi +:+ " 0)".
Proof. text_eq. Qed.

Lemma render_cumulative_h (sum_var : list term) :
  render_command (Assert (App Le [App Add sum_var; l_]))
  = "(assert (<= (+ " +:+ String.concat " " (map render_term sum_var)
    +:+ ") l))".
Proof. text_eq. Qed.

Lemma render_same_size :
  render_command
    (Assert (App Ite [App And [App Eq [Num wi; Num wj]; App Eq [Num hi; Num hj]];
                      App Le [x_ i; x_ j]; TTrue]))
  = "(assert (ite (and (= " +:+ pretty wi +:+ " " +:+ pretty wj +:+ ") (= "
    +:+ pretty hi +:+ " " +:+ pretty hj +:+ ")) (<= coord_x" +:+ pretty i
    +:+ " coord_x" +:+ pretty j +:+ ") true))".
Proof. text_eq. Qed.

Lemma render_origin :
  map render_command (origin i)
  = ["(assert (= coord_x" +:+ pretty i +:+ " 0))";
     "(assert (= coord_y" +:+ pretty i +:+ " 0))"].
Proof. text_eq. Qed.
End text.

(** The file of the scenario [W=8, N=2, widths=[4,4], heights=[3,5]]. *)
Example scenario_lines :
  build_SMTLIB_lines 8 2 [4; 4] [3; 5] "LIA" = Ok
  ["(set-logic LIA)";
   "(declare-fun coord_x0 () Int)"; "(declare-fun coord_x1 () Int)";
   "(declare-fun coord_y0 () Int)"; "(declare-fun coord_y1 () Int)";
   "(declare-fun l () Int)";
   "(assert (and (>= coord_x0 0) (<= coord_x0 4)))";
   "(assert (and (>= coord_x1 0) (<= coord_x1 4)))";
   "(assert (and (>= coord_y0 0) (<= coord_y0 5)))";
   "(assert (and (>= coord_y1 0) (<= coord_y1 5)))";
   "(assert (and (>= l 4) (<= l 8)))";
   "(assert (or (<= (+ coord_x0 4) coord_x1) (<= (+ coord_y0 3) coord_y1) (>= (- coord_x0 4) coord_x1) (>= (- coord_y0 5) coord_y1)))";
   "(assert (and (<= (+ coord_x0 4) 8) (<= (+ coord_y0 3) l)))";
   "(assert (and (<= (+ coord_x1 4) 8) (<= (+ coord_y1 5) l)))";
   "(assert (<= (+ (ite (and (<= coord_y0 4) (< 4 (+ coord_y0 3))) 4 0) (ite (and (<= coord_y1 4) (< 4 (+ coord_y1 5))) 4 0)) 8))";
   "(assert (<= (+ (ite (and (<= coord_y0 4) (< 4 (+ coord_y0 3))) 4 0) (ite (and (<= coord_y1 4) (< 4 (+ coord_y1 5))) 4 0)) 8))";
   "(assert (<= (+ (ite (and (<= coord_x0 3) (< 3 (+ coord_x0 4))) 3 0) (ite (and (<= coord_x1 3) (< 3 (+ coord_x1 4))) 5 0)) l))";
   "(assert (<= (+ (ite (and (<= coord_x0 5) (< 5 (+ coord_x0 4))) 3 0) (ite (and (<= coord_x1 5) (< 5 (+ coord_x1 4))) 5 0)) l))";
   "(assert (ite (and (= 4 4) (= 3 5)) (<= coord_x0 coord_x1) true))";
   "(assert (= coord_x1 0))"; "(assert (= coord_y1 0))";
   "(check-sat)"; "(get-model)"].
Proof. vm_compute. reflexivity. Qed.

(** What raises: no items, a zero strip width, a missing height. *)
Example build_no_items :
  build_SMTLIB_script 8 0 [] [] "LIA" = Raise ValueError.
Proof. vm_compute. reflexivity. Qed.
Example build_zero_width :
  build_SMTLIB_script 0 1 [4] [3] "LIA" = Raise ZeroDivisionError.
Proof. vm_compute. reflexivity. Qed.
Example build_missing_height :
  build_SMTLIB_script 8 2 [4; 4] [3] "LIA" = Raise IndexError.
Proof. vm_compute. reflexivity. Qed.

Example rsplit_slash_path :
  rsplit_slash "./vlsi-instances/txt-instances/ins-1.txt"
  = ["./vlsi-instances/txt-instances"; "ins-1.txt"].
Proof. reflexivity. Qed.
Example rsplit_slash_none : rsplit_slash "ins-1.txt" = ["ins-1.txt"].
Proof. reflexivity. Qed.
Example round_half_even_ties :
  map round_half_even [1 # 2; 3 # 2; 5 # 2; -1 # 2; 7 # 4; 999999 # 1000000]
  = [0; 2; 2; 0; 2; 1].
Proof. reflexivity. Qed.

(* ===================================================================== *)
(** * The shape of the generated script                                   *)
(* ===================================================================== *)

Lemma build_SMTLIB_script_blocks W N widths heights logic s :
  build_SMTLIB_script W N widths heights logic = Ok s ↔
  blocks W N widths heights logic s.
Proof.
  unfold build_SMTLIB_script. split.
  - intros H.
    repeat match type of H with
    | _ ≫= _ = Ok _ =>
        let x := fresh "x" in let Hx := fresh "Hx" in
        apply bind_Ok in H as (x & Hx & H)
    end.
    injection H as <-.
    econstructor; try eassumption.
    rewrite <- !(assoc_L (++)). reflexivity.
  - intros [lo dx dy no bd cw ch ss k -> -> -> -> -> -> -> -> -> ->]. simpl.
    rewrite <- !(assoc_L (++)). reflexivity.
Qed.

Lemma bind_is_Ok {A B} (m : result A) (f : A → result B) :
  is_Ok m → (∀ a, m = Ok a → is_Ok (f a)) → is_Ok (m ≫= f).
Proof. intros [a ->] Hf. simpl. by apply Hf. Qed.

Lemma foldl_max_spec (l : list Z) (x : Z) :
  (foldl Z.max x l = x ∨ foldl Z.max x l ∈ l)
  ∧ x ≤ foldl Z.max x l ∧ ∀ y, y ∈ l → y ≤ foldl Z.max x l.
Proof.
  revert x. induction l as [|z l IH]; intros x; simpl.
  - split; [by left|]. split; [lia|]. by intros y ?%elem_of_nil.
  - destruct (IH (x `max` z)) as ([Heq|Hin] & Hle & Hall).
    + split.
      { rewrite Heq. destruct (Z.max_spec x z) as [[_ ->]|[_ ->]];
          [right; apply list_elem_of_here | by left]. }
      split; [lia|]. intros y [->|Hy]%elem_of_cons; [lia | by apply Hall].
    + split; [right; by apply list_elem_of_further|].
      split; [lia|]. intros y [->|Hy]%elem_of_cons; [lia | by apply Hall].
Qed.

Lemma max_Ok (l : list Z) (m : Z) :
  max l = Ok m → m ∈ l ∧ ∀ y, y ∈ l → y ≤ m.
Proof.
  destruct l as [|x l]; [done|]. intros [= <-].
  destruct (foldl_max_spec l x) as ([Heq|Hin] & Hle & Hall).
  - split; [rewrite Heq; apply list_elem_of_here|].
    intros y [->|Hy]%elem_of_cons; [lia | by apply Hall].
  - split; [by apply list_elem_of_further|].
    intros y [->|Hy]%elem_of_cons; [lia | by apply Hall].
Qed.

Lemma max_is_Ok (l : list Z) : l ≠ [] → is_Ok (max l).
Proof. destruct l; [done|]. by eexists. Qed.

Lemma min_is_Ok (l : list Z) : l ≠ [] → is_Ok (min l).
Proof. destruct l; [done|]. by eexists. Qed.

Lemma list_index_Ok (x : Z) (l : list Z) (k : nat) :
  list_index x l = Ok k ↔
  l !! k = Some x ∧ ∀ j, (j < k)%nat → l !! j ≠ Some x.
Proof.
  revert k. induction l as [|y l IH]; intros k; simpl.
  - split; [done | by intros [? _]].
  - case_decide as Hy.
    + subst y. split.
      * intros [= <-]. split; [done | lia].
      * intros [Hk Hfirst]. destruct k as [|k]; [done|].
        by destruct (Hfirst 0%nat); [lia|].
    + rewrite bind_Ok. split.
      * intros (k' & [Hk' Hfirst]%IH & [= <-]). split; [done|].
        intros [|j] ?; simpl; [congruence | apply Hfirst; lia].
      * intros [Hk Hfirst]. destruct k as [|k]; [simpl in Hk; congruence|].
        exists k. split; [|done]. apply IH. split; [done|].
        intros j ?. apply (Hfirst (S j)). lia.
Qed.

Lemma list_index_is_Ok (x : Z) (l : list Z) : x ∈ l → is_Ok (list_index x l).
Proof.
  induction l as [|y l IH]; [by intros ?%elem_of_nil|]. simpl.
  intros Hx. case_decide; [by eexists|].
  apply elem_of_cons in Hx as [->|Hx]; [done|].
  destruct (IH Hx) as [k ->]. by eexists.
Qed.

(* ===================================================================== *)
(** * When the encoder returns                                            *)
(* ===================================================================== *)

Section is_Ok.
Variables (W N : Z) (widths heights : list Z).
Hypothesis Hwf : well_formed W N widths heights.

Local Ltac ok_step :=
  first
    [ apply bind_is_Ok; [|intros ? ?]
    | apply index_is_Ok
    | apply mapM_is_Ok; intros ? ?
    | by eexists ].

Lemma range_lt_widths i : i ∈ range N → (i < length widths)%nat.
Proof. destruct Hwf as (_ & _ & ? & _). rewrite elem_of_range. lia. Qed.
Lemma range_lt_heights i : i ∈ range N → (i < length heights)%nat.
Proof. destruct Hwf as (_ & _ & _ & ?). rewrite elem_of_range. lia. Qed.
Lemma pairs_lt_range i j : (i, j) ∈ pairs_lt N → i ∈ range N ∧ j ∈ range N.
Proof. rewrite elem_of_pairs_lt, !elem_of_range. lia. Qed.

Lemma widths_nonempty : widths ≠ [].
Proof. destruct Hwf as (_ & ? & ? & _). destruct widths; simpl in *; [lia|done]. Qed.
Lemma heights_nonempty : heights ≠ [].
Proof. destruct Hwf as (_ & ? & _ & ?). destruct heights; simpl in *; [lia|done]. Qed.

Local Hint Resolve range_lt_widths range_lt_heights : core.

Lemma areas_is_Ok : is_Ok (areas N widths heights).
Proof. unfold areas. repeat ok_step; auto. Qed.

Lemma l_low_is_Ok : is_Ok (l_low W N widths heights).
Proof.
  unfold l_low. apply bind_is_Ok; [apply areas_is_Ok|]. intros a _.
  unfold ceil_div. destruct Hwf as (? & _). rewrite decide_False by done.
  by eexists.
Qed.

Lemma max_area_ind_is_Ok : is_Ok (max_area_ind N widths heights).
Proof.
  unfold max_area_ind. destruct areas_is_Ok as [a Ha]. rewrite Ha. simpl.
  assert (a ≠ []) as Hne.
  { apply mapM_Ok_length in Ha. unfold range in Ha. rewrite length_seq in Ha.
    destruct Hwf as (_ & ? & _). destruct a; simpl in *; [lia|done]. }
  destruct (max_is_Ok a Hne) as [m Hm]. rewrite Hm. simpl.
  apply list_index_is_Ok. by apply max_Ok.
Qed.

Lemma build_SMTLIB_script_is_Ok logic :
  is_Ok (build_SMTLIB_script W N widths heights logic).
Proof.
  unfold build_SMTLIB_script.
  apply bind_is_Ok; [apply l_low_is_Ok|]. intros lo _.
  apply bind_is_Ok.
  { apply mapM_is_Ok. intros i _. unfold domain_x.
    destruct (min_is_Ok _ widths_nonempty) as [m ->]. by eexists. }
  intros dx _. apply bind_is_Ok.
  { apply mapM_is_Ok. intros i _. unfold domain_y.
    destruct (min_is_Ok _ heights_nonempty) as [m ->]. by eexists. }
  intros dy _. apply bind_is_Ok.
  { apply mapM_is_Ok. intros [i j] [??]%pairs_lt_range. unfold non_overlap.
    repeat ok_step; auto. }
  intros no _. apply bind_is_Ok.
  { apply mapM_is_Ok. intros i ?. unfold boundary. repeat ok_step; auto. }
  intros bd _. apply bind_is_Ok.
  { apply mapM_is_Ok. intros w _. unfold cumulative_w. repeat ok_step; auto. }
  intros cw _. apply bind_is_Ok.
  { apply mapM_is_Ok. intros h _. unfold cumulative_h. repeat ok_step; auto. }
  intros ch _. apply bind_is_Ok.
  { apply mapM_is_Ok. intros [i j] [??]%pairs_lt_range. unfold same_size.
    repeat ok_step; auto. }
  intros ss _. apply bind_is_Ok; [apply max_area_ind_is_Ok|].
  intros k _. by eexists.
Qed.
End is_Ok.

(** Conversely the encoder returns on these instances only. *)
Lemma build_SMTLIB_script_well_formed W N widths heights logic s :
  build_SMTLIB_script W N widths heights logic = Ok s →
  well_formed W N widths heights.
Proof.
  intros []%build_SMTLIB_script_blocks.
  unfold l_low in b_l_low. apply bind_Ok in b_l_low as (al & Hal & Hdiv).
  unfold max_area_ind in b_max_area_ind. rewrite Hal in b_max_area_ind.
  simpl in b_max_area_ind. apply bind_Ok in b_max_area_ind as (m & Hm & _).
  assert (HN : (1 ≤ Z.to_nat N)%nat).
  { apply mapM_Ok_length in Hal. unfold range in Hal.
    rewrite length_seq in Hal. rewrite <- Hal.
    destruct al; [discriminate Hm | simpl; lia]. }
  assert (Hlast : (Z.to_nat N - 1)%nat ∈ range N) by (apply elem_of_range; lia).
  destruct (mapM_Ok_elem _ _ _ _ Hal Hlast) as (y & Hy & _).
  apply bind_Ok in Hy as (w & Hw%index_Ok%lookup_lt_Some & Hy).
  apply bind_Ok in Hy as (h & Hh%index_Ok%lookup_lt_Some & _).
  repeat split; try lia.
  unfold ceil_div in Hdiv. by case_decide.
Qed.

(* ===================================================================== *)
(** * What a model of the script says about the rectangles                *)
(* ===================================================================== *)

Lemma index_Ok_total (l : list Z) i x : index l i = Ok x → l !!! i = x.
Proof. intros Hx%index_Ok. by apply list_lookup_total_correct. Qed.

Section models.
Variables (W N : Z) (widths heights : list Z) (logic : string).
Variables (s : list command) (a : assignment).
Hypothesis Hs : build_SMTLIB_script W N widths heights logic = Ok s.
Hypothesis Ha : models a s.

Lemma models_domain_x i : (i < Z.to_nat N)%nat → X a i >= 0.
Proof.
  intros Hi%elem_of_range.
  apply build_SMTLIB_script_blocks in Hs as [].
  destruct (mapM_Ok_elem _ _ _ _ b_domain_x Hi) as (c & Hc & Hin).
  unfold domain_x in Hc. apply bind_Ok in Hc as (m & _ & [= <-]).
  assert (Hh : holds a (App And [App Ge [x_ i; Num 0]; App Le [x_ i; Num (W - m)]])).
  { apply Ha. subst s. rewrite !elem_of_app. auto 10. }
  eval_holds Hh. unfold X, Y, w_, h_. lia.
Qed.

Lemma models_domain_y i : (i < Z.to_nat N)%nat → Y a i >= 0.
Proof.
  intros Hi%elem_of_range.
  apply build_SMTLIB_script_blocks in Hs as [].
  destruct (mapM_Ok_elem _ _ _ _ b_domain_y Hi) as (c & Hc & Hin).
  unfold domain_y in Hc. apply bind_Ok in Hc as (m & _ & [= <-]).
  assert (Hh : holds a (App And [App Ge [y_ i; Num 0];
                                 App Le [y_ i; Num (l_up heights - m)]])).
  { apply Ha. subst s. rewrite !elem_of_app. auto 10. }
  eval_holds Hh. unfold X, Y, w_, h_. lia.
Qed.

Lemma models_boundary i :
  (i < Z.to_nat N)%nat →
  X a i + w_ widths i ≤ W ∧ Y a i + h_ heights i ≤ a l_var.
Proof.
  intros Hi%elem_of_range.
  apply build_SMTLIB_script_blocks in Hs as [].
  destruct (mapM_Ok_elem _ _ _ _ b_boundary Hi) as (c & Hc & Hin).
  unfold boundary in Hc.
  apply bind_Ok in Hc as (wi & <-%index_Ok_total & Hc).
  apply bind_Ok in Hc as (hi & <-%index_Ok_total & [= <-]).
  match type of Hin with Assert ?t ∈ _ => assert (Hh : holds a t) end.
  { apply Ha. subst s. rewrite !elem_of_app. auto 10. }
  eval_holds Hh. unfold X, Y, w_, h_. lia.
Qed.

Lemma models_non_overlap i j :
  (i < j)%nat → (j < Z.to_nat N)%nat → separated widths heights a i j.
Proof.
  intros Hij Hj.
  assert (Hp : (i, j) ∈ pairs_lt N) by by apply elem_of_pairs_lt.
  apply build_SMTLIB_script_blocks in Hs as [].
  destruct (mapM_Ok_elem _ _ _ _ b_non_overlap Hp) as (c & Hc & Hin).
  unfold non_overlap in Hc.
  apply bind_Ok in Hc as (wi & <-%index_Ok_total & Hc).
  apply bind_Ok in Hc as (hi & <-%index_Ok_total & Hc).
  apply bind_Ok in Hc as (wj & <-%index_Ok_total & Hc).
  apply bind_Ok in Hc as (hj & <-%index_Ok_total & [= <-]).
  match type of Hin with Assert ?t ∈ _ => assert (Hh : holds a t) end.
  { apply Ha. subst s. rewrite !elem_of_app. auto 10. }
  unfold separated, X, Y, w_, h_.
  eval_holds Hh; lia.
Qed.

Lemma models_valid_placement : valid_placement W N widths heights a.
Proof.
  split.
  - apply models_non_overlap.
  - intros i Hi. unfold inside.
    pose proof (models_domain_x i Hi). pose proof (models_domain_y i Hi).
    pose proof (models_boundary i Hi). tauto.
Qed.
End models.

Section models_more.
Variables (W N : Z) (widths heights : list Z) (logic : string).
Variables (s : list command) (a : assignment).
Hypothesis Hs : build_SMTLIB_script W N widths heights logic = Ok s.
Hypothesis Ha : models a s.


Lemma models_origin k :
  max_area_ind N widths heights = Ok k → X a k = 0 ∧ Y a k = 0.
Proof.
  intros Hk. apply build_SMTLIB_script_blocks in Hs as [].
  assert (k0 = k) as -> by congruence.
  assert (Hx : holds a (App Eq [x_ k; Num 0])).
  { apply Ha. subst s. unfold origin. rewrite !elem_of_app, !elem_of_cons. auto 20. }
  assert (Hy : holds a (App Eq [y_ k; Num 0])).
  { apply Ha. subst s. unfold origin. rewrite !elem_of_app, !elem_of_cons. auto 20. }
  eval_holds Hx. eval_holds Hy. done.
Qed.
End models_more.

Lemma modelsb_models (a : assignment) (s : list command) :
  modelsb a s = true ↔ models a s.
Proof.
  unfold modelsb, models. rewrite forallb_forall. split.
  - intros H t Ht. unfold holds.
    assert (Hb : holdsb a t = true).
    { apply H, list_elem_of_In, list_elem_of_omap. by exists (Assert t). }
    unfold holdsb in Hb. destruct (eval a t) as [[|[]]|]; congruence.
  - intros H t (c & Hc & Heq)%list_elem_of_In%list_elem_of_omap.
    destruct c; try discriminate. injection Heq as ->.
    unfold holdsb. by rewrite (H t Hc).
Qed.

(* ===================================================================== *)
(** * Properties of the SMT encoding                                      *)
(* ===================================================================== *)

(** The formula that [build_SMTLIB_model] generates is the script: the file
    written holds its commands, one per line. *)
Lemma build_SMTLIB_model_file W N widths heights logic (fs fs' : files) :
  build_SMTLIB_model W N widths heights logic fs = Ok fs' ↔
  ∃ s, build_SMTLIB_script W N widths heights logic = Ok s
       ∧ fs' = write_lines model_path (map render_command s) fs.
Proof.
  unfold build_SMTLIB_model, build_SMTLIB_lines. split.
  - intros (lines & (s & Hs & [= <-])%bind_Ok & [= <-])%bind_Ok. by exists s.
  - intros (s & -> & ->). reflexivity.
Qed.


(** C1. For an instance with [N >= 1], positive widths and heights and every
    width at most [W], the encoder returns a script, and every model of it
    places the [N] rectangles pairwise separated (one of the four disjuncts
    holds for each pair [i < j]) and inside [[0,W] x [0,l]]. *)
Theorem build_SMTLIB_model_valid_placement W N widths heights logic :
  1 ≤ N →
  length widths = Z.to_nat N → length heights = Z.to_nat N →
  Forall (λ w, 0 < w ≤ W) widths → Forall (λ h, 0 < h) heights →
  ∃ s, build_SMTLIB_script W N widths heights logic = Ok s
       ∧ ∀ a, models a s → valid_placement W N widths heights a.
Proof.
  intros HN Hlw Hlh Hw Hh.
  assert (Hwf : well_formed W N widths heights).
  { repeat split; [|lia..].
    destruct widths as [|w ws]; simpl in *; [lia|].
    inversion Hw; subst. lia. }
  destruct (build_SMTLIB_script_is_Ok _ _ _ _ Hwf logic) as [s Hs].
  exists s. split; [done|]. intros a Ha.
  by eapply models_valid_placement.
Qed.

Lemma build_SMTLIB_model_valid_placement_witness :
  ∃ s, build_SMTLIB_script 8 2 [4; 4] [3; 5] "LIA" = Ok s
       ∧ ∀ a, models a s → valid_placement 8 2 [4; 4] [3; 5] a.
Proof.
  apply (build_SMTLIB_model_valid_placement 8 2 [4; 4] [3; 5] "LIA").
  - lia.
  - reflexivity.
  - reflexivity.
  - repeat constructor; lia.
  - repeat constructor; lia.
Defined.

(** C3. On [W=8, N=2, widths=[4,4], heights=[3,5]] the script is
    satisfiable, every model has [l >= 5], and there is a model with [l = 5]
    placing item 1 at (0,0) and item 0 at (4,0), the two being separated. *)
Theorem build_SMTLIB_model_scenario logic :
  ∃ s, build_SMTLIB_script 8 2 [4; 4] [3; 5] logic = Ok s
       ∧ satisfiable s
       ∧ (∀ a, models a s → 5 ≤ a l_var)
       ∧ ∃ a, models a s ∧ a l_var = 5
              ∧ a (coord_x 1) = 0 ∧ a (coord_y 1) = 0
              ∧ a (coord_x 0) = 4 ∧ a (coord_y 0) = 0
              ∧ separated [4; 4] [3; 5] a 0 1.
Proof.
  destruct (build_SMTLIB_script 8 2 [4; 4] [3; 5] logic) as [s|e] eqn:Hs;
    [|vm_compute in Hs; discriminate].
  assert (Hm : models scenario_assignment s).
  { apply modelsb_models. vm_compute in Hs. injection Hs as <-. reflexivity. }
  exists s. split; [done|]. split; [by exists scenario_assignment|]. split.
  - intros a Ha.
    pose proof (models_domain_y _ _ _ _ _ _ _ Hs Ha 1%nat ltac:(simpl; lia)).
    pose proof (models_boundary _ _ _ _ _ _ _ Hs Ha 1%nat ltac:(simpl; lia)) as [_ H5].
    unfold Y, h_ in *. simpl in H5. lia.
  - exists scenario_assignment. repeat split; try done.
    unfold separated, X, Y, w_, h_. simpl. lia.
Qed.





(** ** Symmetry breaking *)

Lemma areas_lookup N widths heights al :
  areas N widths heights = Ok al →
  length al = Z.to_nat N
  ∧ ∀ i, (i < Z.to_nat N)%nat → al !! i = Some (area widths heights i).
Proof.
  intros Hal. split.
  { apply mapM_Ok_length in Hal. unfold range in Hal.
    by rewrite length_seq in Hal. }
  intros i Hi. apply mapM_Ok in Hal.
  assert (Hri : range N !! i = Some i).
  { unfold range. by apply lookup_seq_lt. }
  destruct (Forall2_lookup_l _ _ _ _ _ Hal Hri) as (y & Hy & Hf).
  apply bind_Ok in Hf as (w & <-%index_Ok_total & Hf).
  apply bind_Ok in Hf as (h & <-%index_Ok_total & [= <-]).
  exact Hy.
Qed.

(** [max_area_ind] is the first item of maximum area. *)
Lemma max_area_ind_first N widths heights k :
  max_area_ind N widths heights = Ok k →
  (k < Z.to_nat N)%nat
  ∧ (∀ i, (i < Z.to_nat N)%nat → area widths heights i ≤ area widths heights k)
  ∧ (∀ i, (i < k)%nat → area widths heights i < area widths heights k).
Proof.
  unfold max_area_ind.
  intros (al & Hal & (m & Hm & [Hk Hfirst]%list_index_Ok)%bind_Ok)%bind_Ok.
  destruct (areas_lookup _ _ _ _ Hal) as [Hlen Hlook].
  apply max_Ok in Hm as [_ Hmax].
  assert (Hkn : (k < Z.to_nat N)%nat).
  { rewrite <- Hlen. by eapply lookup_lt_Some. }
  assert (Hmk : m = area widths heights k).
  { rewrite (Hlook k Hkn) in Hk. congruence. }
  subst m. split; [done|]. split.
  - intros i Hi. apply Hmax. eapply list_elem_of_lookup_2, Hlook, Hi.
  - intros i Hi.
    assert (Hin : (i < Z.to_nat N)%nat) by lia.
    assert (area widths heights i ≤ area widths heights k).
    { apply Hmax. eapply list_elem_of_lookup_2, Hlook, Hin. }
    assert (area widths heights i ≠ area widths heights k); [|lia].
    intros Heq. apply (Hfirst i Hi). rewrite (Hlook i Hin). congruence.
Qed.

(** C5. The script contains (a) for every pair [i < j] of items of equal
    width and equal height an assertion that forces
    [coord_x_i <= coord_x_j], and (b) the two assertions [coord_x_k = 0] and
    [coord_y_k = 0] for the first item [k] of maximum area. *)
Theorem build_SMTLIB_model_symmetry_breaking W N widths heights logic :
  well_formed W N widths heights →
  ∃ s, build_SMTLIB_script W N widths heights logic = Ok s
    ∧ (∀ i j, (i < j)%nat → (j < Z.to_nat N)%nat →
         w_ widths i = w_ widths j → h_ heights i = h_ heights j →
         ∃ t, Assert t ∈ s ∧ ∀ a, holds a t → X a i ≤ X a j)
    ∧ ∃ k, (k < Z.to_nat N)%nat
         ∧ (∀ i, (i < Z.to_nat N)%nat → area widths heights i ≤ area widths heights k)
         ∧ (∀ i, (i < k)%nat → area widths heights i < area widths heights k)
         ∧ Assert (App Eq [x_ k; Num 0]) ∈ s
         ∧ Assert (App Eq [y_ k; Num 0]) ∈ s
         ∧ ∀ a, models a s → X a k = 0 ∧ Y a k = 0.
Proof.
  intros Hwf.
  destruct (build_SMTLIB_script_is_Ok _ _ _ _ Hwf logic) as [s Hs].
  exists s. split; [done|].
  pose proof Hs as Hb. apply build_SMTLIB_script_blocks in Hb as []. split.
  - intros i j Hij Hj Hw Hh.
    assert (Hp : (i, j) ∈ pairs_lt N) by by apply elem_of_pairs_lt.
    destruct (mapM_Ok_elem _ _ _ _ b_same_size Hp) as (c & Hc & Hin).
    unfold same_size in Hc.
    apply bind_Ok in Hc as (wi & Hwi%index_Ok_total & Hc).
    apply bind_Ok in Hc as (wj & Hwj%index_Ok_total & Hc).
    apply bind_Ok in Hc as (hi & Hhi%index_Ok_total & Hc).
    apply bind_Ok in Hc as (hj & Hhj%index_Ok_total & [= <-]).
    eexists. split.
    { subst s. rewrite !elem_of_app. eauto 12. }
    intros a Ht. unfold w_, h_ in *.
    assert (wi = wj) as -> by congruence.
    assert (hi = hj) as -> by congruence.
    eval_holds Ht; unfold X; lia.
  - exists k.
    destruct (max_area_ind_first _ _ _ _ b_max_area_ind) as (? & ? & ?).
    repeat split; try done.
    + subst s. unfold origin. rewrite !elem_of_app, !elem_of_cons. auto 20.
    + subst s. unfold origin. rewrite !elem_of_app, !elem_of_cons. auto 20.
    + by eapply models_origin.
    + by eapply models_origin.
Qed.

Lemma build_SMTLIB_model_symmetry_breaking_witness :
  ∃ s, build_SMTLIB_script 8 2 [4; 4] [5; 5] "LIA" = Ok s
    ∧ (∀ i j, (i < j)%nat → (j < Z.to_nat 2)%nat →
         w_ [4; 4] i = w_ [4; 4] j → h_ [5; 5] i = h_ [5; 5] j →
         ∃ t, Assert t ∈ s ∧ ∀ a, holds a t → X a i ≤ X a j)
    ∧ ∃ k, (k < Z.to_nat 2)%nat
         ∧ (∀ i, (i < Z.to_nat 2)%nat → area [4; 4] [5; 5] i ≤ area [4; 4] [5; 5] k)
         ∧ (∀ i, (i < k)%nat → area [4; 4] [5; 5] i < area [4; 4] [5; 5] k)
         ∧ Assert (App Eq [x_ k; Num 0]) ∈ s
         ∧ Assert (App Eq [y_ k; Num 0]) ∈ s
         ∧ ∀ a, models a s → X a k = 0 ∧ Y a k = 0.
Proof.
  apply (build_SMTLIB_model_symmetry_breaking 8 2 [4; 4] [5; 5] "LIA").
  repeat split; simpl; lia.
Defined.

(** ** Cumulative constraints *)

Lemma side_by_side_models s :
  build_SMTLIB_script 2 2 [1; 1] [3; 3] "LIA" = Ok s → models side_by_side s.
Proof.
  intros Hs. apply modelsb_models. vm_compute in Hs. injection Hs as <-.
  reflexivity.
Qed.

(** C2, as stated, fails: on [W=2, widths=[1,1], heights=[3,3]] the script
    has a model in which both items cross height 1, so their heights add up
    to 6 > W; no assertion of the script states the heights-against-[W]
    bound. *)
Lemma spec_cumulative_counterexample :
  ∃ s, build_SMTLIB_script 2 2 [1; 1] [3; 3] "LIA" = Ok s
       ∧ ¬ spec_cumulative 2 2 [1; 1] [3; 3] s.
Proof.
  destruct (build_SMTLIB_script 2 2 [1; 1] [3; 3] "LIA") as [s|e] eqn:Hs;
    [|vm_compute in Hs; discriminate].
  exists s. split; [done|]. intros [Hw _].
  destruct (Hw 1) as (k & (t & Hk & Ht) & _); [apply list_elem_of_here|].
  pose proof (side_by_side_models s Hs) as Hm.
  assert (Hh : holds side_by_side t).
  { apply Hm. by eapply list_elem_of_lookup_2. }
  apply Ht in Hh. vm_compute in Hh. by apply Hh.
Qed.

Lemma filter_none {A} (P : A → Prop) `{∀ x, Decision (P x)} (l : list A) :
  (∀ x, x ∈ l → ¬ P x) → filter P l = [].
Proof.
  induction l as [|x l IH]; intros Hl; [done|].
  rewrite filter_cons_False by (apply Hl, list_elem_of_here).
  apply IH. intros y ?. by apply Hl, list_elem_of_further.
Qed.

Lemma filter_all {A} (P : A → Prop) `{∀ x, Decision (P x)} (l : list A) :
  (∀ x, x ∈ l → P x) → filter P l = l.
Proof.
  induction l as [|x l IH]; intros Hl; [done|].
  rewrite filter_cons_True by (apply Hl, list_elem_of_here).
  f_equal. apply IH. intros y ?. by apply Hl, list_elem_of_further.
Qed.

Lemma mapM_filter_none {A} (f : A → result command) l k :
  mapM f l = Ok k →
  (∀ x c, f x = Ok c → is_cumulative c = false) →
  filter is_cumulative k = [].
Proof.
  intros Hm Hf. apply filter_none. intros c Hc.
  destruct (mapM_Ok_elem_inv _ _ _ _ Hm Hc) as (x & _ & Hx).
  rewrite (Hf x c Hx). exact id.
Qed.

Lemma mapM_filter_all {A} (f : A → result command) l k :
  mapM f l = Ok k →
  (∀ x c, f x = Ok c → is_cumulative c = true) →
  filter is_cumulative k = k.
Proof.
  intros Hm Hf. apply filter_all. intros c Hc.
  destruct (mapM_Ok_elem_inv _ _ _ _ Hm Hc) as (x & _ & Hx).
  by rewrite (Hf x c Hx).
Qed.

(** The value of a sum whose summands are known. *)
Lemma eval_Add (a : assignment) {A} (f : A → Z) (l : list A) (ts : list term) :
  Forall2 (λ x t, eval a t = Some (VInt (f x))) l ts →
  eval a (App Add ts) = Some (VInt (foldr Z.add 0 (map f l))).
Proof.
  intros Hts. cbn.
  assert (mapM as_int (map (eval a) ts) = Some (map f l)) as ->; [|done].
  induction Hts as [|x t l ts Hx _ IH]; [done|].
  cbn. rewrite Hx. cbn. by rewrite IH.
Qed.

Section cumulative_lemmas.
Variables (W N : Z) (widths heights : list Z).

Lemma cumulative_w_states w c :
  cumulative_w W N widths heights w = Ok c →
  is_cumulative c = true
  ∧ ∃ t, c = Assert t ∧ states t (cumulative_w_holds W N widths heights w).
Proof.
  unfold cumulative_w. intros (ts & Hts & [= <-])%bind_Ok.
  split; [done|]. eexists. split; [done|]. intros a.
  unfold holds, cumulative_w_holds, sum_where.
  assert (Hsum : eval a (App Add ts) = Some (VInt (foldr Z.add 0
            (map (λ i, if decide (crosses_y heights a w i)
                       then w_ widths i else 0) (range N))))).
  { apply eval_Add. apply mapM_Ok in Hts.
    eapply Forall2_impl; [exact Hts|]. intros i t Ht. cbn beta in Ht.
    apply bind_Ok in Ht as (hi & <-%index_Ok_total & Ht).
    apply bind_Ok in Ht as (wi & <-%index_Ok_total & [= <-]).
    cbn. unfold crosses_y, Y, h_, w_.
    repeat case_inner_bool_decide; case_decide; f_equal; f_equal; lia. }
  change (eval a (App Le [App Add ts; Num W]))
    with (apply_op Le [eval a (App Add ts); Some (VInt W)]).
  rewrite Hsum. cbn. case_bool_decide; split; (done || congruence).
Qed.

Lemma cumulative_h_states h c :
  cumulative_h N widths heights h = Ok c →
  is_cumulative c = true
  ∧ ∃ t, c = Assert t ∧ states t (cumulative_h_holds N widths heights h).
Proof.
  unfold cumulative_h. intros (ts & Hts & [= <-])%bind_Ok.
  split; [done|]. eexists. split; [done|]. intros a.
  unfold holds, cumulative_h_holds, sum_where.
  assert (Hsum : eval a (App Add ts) = Some (VInt (foldr Z.add 0
            (map (λ i, if decide (crosses_x widths a h i)
                       then h_ heights i else 0) (range N))))).
  { apply eval_Add. apply mapM_Ok in Hts.
    eapply Forall2_impl; [exact Hts|]. intros i t Ht. cbn beta in Ht.
    apply bind_Ok in Ht as (wi & <-%index_Ok_total & Ht).
    apply bind_Ok in Ht as (hi & <-%index_Ok_total & [= <-]).
    cbn. unfold crosses_x, X, h_, w_.
    repeat case_inner_bool_decide; case_decide; f_equal; f_equal; lia. }
  change (eval a (App Le [App Add ts; l_]))
    with (apply_op Le [eval a (App Add ts); Some (VInt (a l_var))]).
  rewrite Hsum. cbn. case_bool_decide; split; (done || congruence).
Qed.
End cumulative_lemmas.

Lemma mapM_Forall2_states {A} (f : A → result command)
    (P : A → assignment → Prop) l k :
  mapM f l = Ok k →
  (∀ x c, f x = Ok c → ∃ t, c = Assert t ∧ states t (P x)) →
  Forall2 (λ x c, ∃ t, c = Assert t ∧ states t (P x)) l k.
Proof.
  intros Hm%mapM_Ok Hf. eapply Forall2_impl; [exact Hm|]. exact Hf.
Qed.

(** C2, amended. The cumulative assertions of the script are, in order, one
    per element of [widths] (repeated values included) stating that the
    widths of the items crossing that height add up to at most [W], then one
    per element of [heights] stating that the heights of the items crossing
    that abscissa add up to at most [l]. *)
Theorem build_SMTLIB_model_cumulative W N widths heights logic :
  well_formed W N widths heights →
  ∃ s cw ch,
    build_SMTLIB_script W N widths heights logic = Ok s
    ∧ filter is_cumulative s = cw ++ ch
    ∧ Forall2 (λ w c, ∃ t, c = Assert t
                 ∧ states t (cumulative_w_holds W N widths heights w)) widths cw
    ∧ Forall2 (λ h c, ∃ t, c = Assert t
                 ∧ states t (cumulative_h_holds N widths heights h)) heights ch.
Proof.
  intros Hwf.
  destruct (build_SMTLIB_script_is_Ok _ _ _ _ Hwf logic) as [s Hs].
  pose proof Hs as Hb. apply build_SMTLIB_script_blocks in Hb as [].
  exists s, cw, ch. split; [done|]. split; [|split].
  - subst s. rewrite !filter_app.
    rewrite (mapM_filter_none _ _ _ b_domain_x).
    2:{ intros i c (m & _ & [= <-])%bind_Ok. done. }
    rewrite (mapM_filter_none _ _ _ b_domain_y).
    2:{ intros i c (m & _ & [= <-])%bind_Ok. done. }
    rewrite (mapM_filter_none _ _ _ b_non_overlap).
    2:{ intros [i j] c Hc. unfold non_overlap in Hc.
        repeat (apply bind_Ok in Hc as (? & _ & Hc)). by injection Hc as <-. }
    rewrite (mapM_filter_none _ _ _ b_boundary).
    2:{ intros i c Hc. unfold boundary in Hc.
        repeat (apply bind_Ok in Hc as (? & _ & Hc)). by injection Hc as <-. }
    rewrite (mapM_filter_none _ _ _ b_same_size).
    2:{ intros [i j] c Hc. unfold same_size in Hc.
        repeat (apply bind_Ok in Hc as (? & _ & Hc)). by injection Hc as <-. }
    rewrite (mapM_filter_all _ _ _ b_cumulative_w).
    2:{ intros w c Hc. by apply cumulative_w_states in Hc as [? _]. }
    rewrite (mapM_filter_all _ _ _ b_cumulative_h).
    2:{ intros w c Hc. by apply cumulative_h_states in Hc as [? _]. }
    assert (filter is_cumulative (declarations N) = []) as ->.
    { apply filter_none. unfold declarations. intros c.
      rewrite !elem_of_app, !list_elem_of_fmap, list_elem_of_singleton.
      intros [(i & -> & _)|[(i & -> & _)| ->]]; exact id. }
    cbn. by rewrite !app_nil_r.
  - eapply mapM_Forall2_states; [exact b_cumulative_w|].
    intros w c Hc. by apply cumulative_w_states in Hc as [_ ?].
  - eapply mapM_Forall2_states; [exact b_cumulative_h|].
    intros h c Hc. by apply cumulative_h_states in Hc as [_ ?].
Qed.

Lemma build_SMTLIB_model_cumulative_witness :
  ∃ s cw ch,
    build_SMTLIB_script 2 2 [1; 1] [3; 3] "LIA" = Ok s
    ∧ filter is_cumulative s = cw ++ ch
    ∧ Forall2 (λ w c, ∃ t, c = Assert t
                 ∧ states t (cumulative_w_holds 2 2 [1; 1] [3; 3] w)) [1; 1] cw
    ∧ Forall2 (λ h c, ∃ t, c = Assert t
                 ∧ states t (cumulative_h_holds 2 [1; 1] [3; 3] h)) [3; 3] ch.
Proof.
  apply (build_SMTLIB_model_cumulative 2 2 [1; 1] [3; 3] "LIA").
  repeat split; simpl; lia.
Defined.

(** On that instance the level 1 occurs twice in [widths] and the level 3
    twice in [heights]: each assertion is in the script twice. *)
Lemma cumulative_duplicates :
  ∃ s c d, build_SMTLIB_script 2 2 [1; 1] [3; 3] "LIA" = Ok s
           ∧ filter is_cumulative s = [c; c; d; d].
Proof.
  eexists _, _, _. split; [vm_compute; reflexivity|]. vm_compute. reflexivity.
Qed.

(** ** Determinism of the encoding *)


(* ===================================================================== *)
(** * The reporter                                                        *)
(* ===================================================================== *)

Lemma io_bind_Ok {A B} (m : io A) (f : A → io B) t b :
  m ≫= f = (t, Ok b) ↔
  ∃ t1 a t2, m = (t1, Ok a) ∧ f a = (t2, Ok b) ∧ t = t1 ++ t2.
Proof.
  destruct m as [t1 [a|e]]; simpl.
  - destruct (f a) as [t2 r] eqn:Hf. split.
    + intros [= <- ->]. by exists t1, a, t2.
    + intros (? & ? & ? & [= <- <-] & Hf' & ->). rewrite Hf in Hf'.
      by injection Hf' as -> ->.
  - split; [done|]. by intros (? & ? & ? & ? & _).
Qed.

(** The loop over the items prints the geometry lines in order and stops at
    the first one whose evaluation raises. *)
Lemma for_geometry (sol : Solution) (l : list nat) t r :
  for_ l (λ i, line ← lift (geometry_line sol i); emit (Printed line)) = (t, r) →
  ∃ geo, t = map Printed geo
         ∧ Forall2 (λ i line, geometry_line sol i = Ok line)
                   (take (length geo) l) geo
         ∧ (r = Ok () → length geo = length l).
Proof.
  revert t r. induction l as [|i l IH]; intros t r; simpl.
  - intros [= <- <-]. exists []. by repeat split; try constructor.
  - destruct (geometry_line sol i) as [line|e] eqn:Hline; simpl.
    + destruct (for_ l _) as [t' r'] eqn:Hfor. intros [= <- <-].
      destruct (IH _ _ eq_refl) as (geo & -> & Hgeo & Hlen).
      exists (line :: geo). split; [done|]. split.
      * simpl. by constructor.
      * intros Hr. simpl. f_equal. by apply Hlen.
    + intros [= <- <-]. exists []. split; [done|]. split; [constructor|done].
Qed.

(** The line with the solve time is none of the status messages. *)
Lemma time_line_not_status str_float sol st :
  time_line str_float sol ≠ status_message st.
Proof.
  unfold status_message, time_line. repeat case_decide; discriminate.
Qed.

(** C7, as stated, fails: for a solution of status [ERROR] the only line
    printed is the status message; no solve time is printed. *)
Lemma spec_print_logging_counterexample :
  print_logging (λ _, "0.0") failed_solution = ([Printed ERROR_MSG], Ok ())
  ∧ ¬ spec_print_logging (λ _, "0.0") failed_solution.
Proof.
  split; [reflexivity|].
  intros (_ & Htime & _). simpl in Htime.
  apply list_elem_of_singleton in Htime. discriminate.
Qed.

(** C7, amended. The status message is printed first, whatever the status.
    When the status is not admissible nothing else is printed. When it is,
    the summary line and the solve-time line follow, then one geometry line
    per item, in order (all [n_circuits] of them when the call returns).
    So the solve-time line is printed exactly when the status is
    admissible. *)
Theorem print_logging_output (str_float : Q → string) (sol : Solution) :
  ∃ rest r,
    print_logging str_float sol
      = (Printed (status_message (status sol)) :: rest, r)
    ∧ (SOLUTION_ADMISSABLE (status sol) = false → rest = [] ∧ r = Ok ())
    ∧ (SOLUTION_ADMISSABLE (status sol) = true →
         ∃ geo, rest = Printed (solved_line sol)
                       :: Printed (time_line str_float sol) :: map Printed geo
                ∧ (∀ i line, geo !! i = Some line → geometry_line sol i = Ok line)
                ∧ (r = Ok () →
                     ∃ n, n_circuits sol = Some n ∧ length geo = Z.to_nat n))
    ∧ (Printed (time_line str_float sol)
         ∈ Printed (status_message (status sol)) :: rest
       ↔ SOLUTION_ADMISSABLE (status sol) = true).
Proof.
  unfold print_logging.
  destruct (SOLUTION_ADMISSABLE (status sol)) eqn:Hadm; simpl.
  - destruct (n_circuits sol) as [n|] eqn:Hn; simpl.
    + destruct (for_ (range n) _) as [t r] eqn:Hfor.
      destruct (for_geometry _ _ _ _ Hfor) as (geo & -> & Hgeo & Hlen).
      eexists _, r. split; [reflexivity|]. split; [done|]. split.
      * intros _. exists geo. split; [done|]. split.
        -- intros i line Hi.
           assert (Hi' : (i < length geo)%nat) by by eapply lookup_lt_Some.
           destruct (Forall2_lookup_r _ _ _ _ _ Hgeo Hi) as (j & Hj & Hline).
           apply lookup_take_Some in Hj as [Hj _].
           unfold range in Hj. apply lookup_seq in Hj as [-> _]. exact Hline.
        -- intros Hr. exists n. split; [done|]. rewrite (Hlen Hr).
           unfold range. by rewrite length_seq.
      * split; [done|]. intros _. rewrite !elem_of_cons. auto.
    + eexists _, _. split; [reflexivity|]. split; [done|]. split.
      * intros _. exists []. split; [done|]. split; [|done].
        intros i line Hi. by rewrite lookup_nil in Hi.
      * split; [done|]. intros _. rewrite !elem_of_cons. auto.
  - eexists _, _. split; [reflexivity|]. split; [done|]. split; [done|].
    split; [|done]. intros [Heq|Hin]%elem_of_cons.
    + injection Heq as Heq. by apply time_line_not_status in Heq.
    + by apply elem_of_nil in Hin.
Qed.

Example print_logging_optimal :
  print_logging (λ _, "0.5")
    {| status := Some OPTIMAL; input_name := Some "ins-1"; width := Some 8;
       n_circuits := Some 2; circuits := Some [[4; 3]; [4; 5]];
       height := Some 5; solve_time := Some (1 # 2);
       coords := Some {| cx := [Some 4; Some 0]; cy := [Some 0; Some 0] |};
       rotation := Some [false; false] |}
  = ([Printed "Optimal solution has been found";
      Printed "Solved ins-1 with W=8 and H=5";
      Printed "Time: 0.5";
      Printed "4 3, 4 0";
      Printed "4 5, 0 0"], Ok ()).
Proof. reflexivity. Qed.

(* ===================================================================== *)
(** * The MIP decode path                                                 *)
(* ===================================================================== *)

Lemma lift_Ok_bind {A B} (a : A) (f : A → io B) : lift (Ok a) ≫= f = f a.
Proof. unfold lift. simpl. by destruct (f a). Qed.

Lemma lift_Raise_bind {A B} (e : exn) (f : A → io B) :
  lift (Raise e) ≫= f = ([], Raise e).
Proof. done. Qed.

Lemma lift_bind_Ok {A B} (r : result A) (f : A → io B) t b :
  lift r ≫= f = (t, Ok b) ↔ ∃ a, r = Ok a ∧ f a = (t, Ok b).
Proof.
  destruct r as [a|e].
  - rewrite lift_Ok_bind. split; [eauto|]. by intros (? & [= <-] & ?).
  - rewrite lift_Raise_bind. split; [done|]. by intros (? & ? & _).
Qed.

Section decode_lemmas.
Context `{E : Collaborators}.

Lemma setitem_length {A} (l l' : list A) i x :
  setitem l i x = Ok l' → length l' = length l.
Proof.
  unfold setitem. repeat case_decide; intros [=]; subst;
    by rewrite length_insert.
Qed.

Lemma decode_variable_rotation xs ys rot v xs' ys' rot' :
  decode_variable (xs, ys, rot) v = Ok (xs', ys', rot') →
  length rot' = length rot
  ∧ (startswith "rot" (name v) = false → rot' = rot).
Proof.
  unfold decode_variable.
  destruct (startswith "coord_x" (name v)) eqn:Hx.
  { intros (r & _ & (i & _ & (l & _ & [= <- <- <-])%bind_Ok)%bind_Ok)%bind_Ok.
    done. }
  destruct (startswith "coord_y" (name v)) eqn:Hy.
  { intros (r & _ & (i & _ & (l & _ & [= <- <- <-])%bind_Ok)%bind_Ok)%bind_Ok.
    done. }
  destruct (startswith "rot" (name v)) eqn:Hr.
  { intros (r & _ & (i & _ & (l & Hl & [= <- <- <-])%bind_Ok)%bind_Ok)%bind_Ok.
    split; [by eapply setitem_length | done]. }
  by intros [= <- <- <-].
Qed.

Lemma decode_variables_rotation vs xs ys rot xs' ys' rot' :
  decode_variables (xs, ys, rot) vs = Ok (xs', ys', rot') →
  length rot' = length rot
  ∧ ((∀ v, v ∈ vs → startswith "rot" (name v) = false) → rot' = rot).
Proof.
  revert xs ys rot. induction vs as [|v vs IH]; intros xs ys rot; simpl.
  - by intros [= <- <- <-].
  - intros ([[xs1 ys1] rot1] & Hv & Hvs)%bind_Ok.
    apply decode_variable_rotation in Hv as [Hlen1 Heq1].
    apply IH in Hvs as [Hlen Heq]. split; [congruence|].
    intros Hno. rewrite Heq, Heq1; [done|..].
    + apply Hno, list_elem_of_here.
    + intros v' ?. by apply Hno, list_elem_of_further.
Qed.

(** What the decode step leaves in [rotation] and in the other fields. *)
Lemma decode_rotation N prob sol sol' :
  decode N prob sol = Ok sol' →
  status sol' = status sol ∧ n_circuits sol' = n_circuits sol
  ∧ (SOLUTION_ADMISSABLE (status sol) = true → 1 ≤ N →
       ∃ r, rotation sol' = Some r ∧ length r = Z.to_nat N
            ∧ ((∀ v, v ∈ variables prob → startswith "rot" (name v) = false) →
                 r = replicate (Z.to_nat N) false)).
Proof.
  unfold decode. destruct (SOLUTION_ADMISSABLE (status sol)) eqn:Hadm.
  - intros (h & _ & ([[xs ys] rot] & Hdec & [= <-])%bind_Ok)%bind_Ok.
    split; [done|]. split; [done|]. intros _ HN.
    apply decode_variables_rotation in Hdec as [Hlen Heq].
    rewrite length_replicate in Hlen. simpl.
    rewrite decide_True by lia. exists rot. split; [done|]. split; [done|].
    exact Heq.
  - intros [= <-]. by repeat split.
Qed.
End decode_lemmas.

Section run_mip_solver.
Context `{E : Collaborators}.

(** The solution that reaches the [try]: the instance is echoed in it and
    the other fields are as [Solution()] made them. *)
Lemma prepare_fields input_name model_type solver timeout sol N prob slv :
  prepare input_name model_type solver timeout = Ok (sol, N, prob, slv) →
  ∃ W widths heights cs,
    Data.input_name sol = Some input_name
    ∧ width sol = Some W
    ∧ n_circuits sol = Some N
    ∧ circuits sol = Some cs
    ∧ mapM (λ i, w ← index widths i; h ← index heights i; Ok [w; h]) (range N)
        = Ok cs
    ∧ status sol = status Solution_new
    ∧ coords sol = coords Solution_new
    ∧ height sol = height Solution_new
    ∧ rotation sol = rotation Solution_new
    ∧ solve_time sol = solve_time Solution_new
    ∧ (model_type = BASE → build_pulp_model W N widths heights = Ok prob).
Proof.
  unfold prepare.
  intros (data_file & _ & (dir & _ & (file & _ & H)%bind_Ok)%bind_Ok)%bind_Ok.
  apply bind_Ok in H as ([[[W N'] widths] heights] & _ & H).
  apply bind_Ok in H as (cs & Hcs & H).
  apply bind_Ok in H as (prob' & Hprob & H).
  apply bind_Ok in H as (slv' & _ & [= <- <- <- <-]).
  exists W, widths, heights, cs. simpl. repeat split; try done.
  intros ->. by rewrite decide_True in Hprob.
Qed.

(** The two ways [run_mip_solver] returns: the solver raised, or the
    solved program was decoded. *)
Lemma run_mip_solver_Ok input_name model_type solver timeout t sol :
  run_mip_solver input_name model_type solver timeout = (t, Ok sol) →
  ∃ sol0 N prob slv,
    prepare input_name model_type solver timeout = Ok (sol0, N, prob, slv)
    ∧ ((∃ err, solve prob slv = Raise err ∧ t = [LogUnexpected err]
               ∧ sol = set_status ERROR sol0)
       ∨ (∃ solved st tm,
            solve prob slv = Ok solved
            ∧ StatusEnum_of (sol_status solved) = Ok st
            ∧ compute_solve_time (solutionTime solved) = Ok tm
            ∧ decode N solved (set_solve_time tm (set_status st sol0)) = Ok sol
            ∧ t = [])).
Proof.
  unfold run_mip_solver.
  intros ([[[sol0 N] prob] slv] & Hprep & H)%lift_bind_Ok.
  exists sol0, N, prob, slv. split; [done|].
  destruct (solve prob slv) as [solved|err].
  - right. apply lift_bind_Ok in H as (st & Hst & H).
    apply lift_bind_Ok in H as (tm & Htm & H).
    unfold lift in H. injection H as <- H.
    by exists solved, st, tm.
  - left. exists err. simpl in H. by injection H as <- <-.
Qed.
End run_mip_solver.

(** C6. When execution reaches [prob.solve(solver)] and the call raises
    [err], whatever [err] is, [run_mip_solver] logs it and returns (does not
    raise) a solution of status [ERROR] in which the instance fields
    [input_name], [width], [n_circuits] and [circuits] are set, while
    [coords], [height], [rotation] and [solve_time] are as [Solution()] made
    them. *)
Theorem run_mip_solver_solver_error `{E : Collaborators}
    input_name model_type solver timeout sol0 N prob slv err :
  prepare input_name model_type solver timeout = Ok (sol0, N, prob, slv) →
  solve prob slv = Raise err →
  ∃ sol,
    run_mip_solver input_name model_type solver timeout
      = ([LogUnexpected err], Ok sol)
    ∧ status sol = Some ERROR
    ∧ (∃ W widths heights cs,
         Data.input_name sol = Some input_name
         ∧ width sol = Some W
         ∧ n_circuits sol = Some N
         ∧ circuits sol = Some cs
         ∧ mapM (λ i, w ← index widths i; h ← index heights i; Ok [w; h])
             (range N) = Ok cs)
    ∧ coords sol = coords Solution_new
    ∧ height sol = height Solution_new
    ∧ rotation sol = rotation Solution_new
    ∧ solve_time sol = solve_time Solution_new.
Proof.
  intros Hprep Herr. exists (set_status ERROR sol0).
  destruct (prepare_fields _ _ _ _ _ _ _ _ Hprep)
    as (W & widths & heights & cs & ? & ? & ? & ? & ? & ? & ? & ? & ? & ? & _).
  split.
  - unfold run_mip_solver. rewrite Hprep, lift_Ok_bind. simpl.
    by rewrite Herr.
  - simpl. split; [done|]. split; [by exists W, widths, heights, cs|]. done.
Qed.

(** ** The scenario, solved and failing *)

Example run_mip_solver_scenario :
  @run_mip_solver (scenario_collaborators (Ok scenario_solved))
    "ins-1" BASE CPLEX 300
  = ([], Ok {| status := Some OPTIMAL; input_name := Some "ins-1";
               width := Some 8; n_circuits := Some 2;
               circuits := Some [[4; 3]; [4; 5]]; height := Some 5;
               solve_time := Some (1 # 4);
               coords := Some {| cx := [Some 4; Some 0]; cy := [Some 0; Some 0] |};
               rotation := Some [false; false] |}).
Proof. reflexivity. Qed.

Lemma run_mip_solver_solver_error_witness :
  let E := scenario_collaborators (Raise (External "solver crashed")) in
  ∃ sol,
    run_mip_solver "ins-1" BASE CPLEX 300
      = ([LogUnexpected (External "solver crashed")], Ok sol)
    ∧ status sol = Some ERROR
    ∧ (∃ W widths heights cs,
         Data.input_name sol = Some "ins-1"
         ∧ width sol = Some W
         ∧ n_circuits sol = Some 2
         ∧ circuits sol = Some cs
         ∧ mapM (λ i, w ← index widths i; h ← index heights i; Ok [w; h])
             (range 2) = Ok cs)
    ∧ coords sol = coords Solution_new
    ∧ height sol = height Solution_new
    ∧ rotation sol = rotation Solution_new
    ∧ solve_time sol = solve_time Solution_new.
Proof.
  intros E.
  eapply (run_mip_solver_solver_error (E := E) "ins-1" BASE CPLEX 300
            _ 2 () () (External "solver crashed")).
  - reflexivity.
  - reflexivity.
Defined.

(** C9. Whenever [run_mip_solver] returns a solution of admissible status
    for [N >= 1] items, [rotation] is a list of exactly [N] booleans, not
    [None]; for the base model every entry is [False]. *)
Theorem run_mip_solver_rotation `{E : Collaborators}
    input_name model_type solver timeout t sol :
  run_mip_solver input_name model_type solver timeout = (t, Ok sol) →
  SOLUTION_ADMISSABLE (status sol) = true →
  ∃ N, n_circuits sol = Some N
       ∧ (1 ≤ N →
          ∃ r, rotation sol = Some r ∧ length r = Z.to_nat N
               ∧ (model_type = BASE → base_model_without_rot →
                    r = replicate (Z.to_nat N) false)).
Proof.
  intros (sol0 & N & prob & slv & Hprep & Hcases)%run_mip_solver_Ok Hadm.
  destruct (prepare_fields _ _ _ _ _ _ _ _ Hprep)
    as (W & widths & heights & cs & _ & _ & HN & _ & _ & _ & _ & _ & _ & _ & Hbase).
  exists N. destruct Hcases as [(err & _ & _ & ->)|(solved & st & tm & Hsolve & _ & _ & Hdec & _)].
  { done. }
  apply decode_rotation in Hdec as (Hst & Hn & Hrot).
  split; [by rewrite Hn|]. intros HN1.
  rewrite Hst in Hadm. destruct (Hrot Hadm HN1) as (r & Hr & Hlen & Hfalse).
  exists r. split; [done|]. split; [done|].
  intros Hmt Hno. apply Hfalse. intros v Hv.
  eapply Hno; [by apply Hbase | exact Hsolve | exact Hv].
Qed.

Lemma run_mip_solver_rotation_witness :
  let E := scenario_collaborators (Ok scenario_solved) in
  ∃ N, n_circuits
         {| status := Some OPTIMAL; input_name := Some "ins-1";
            width := Some 8; n_circuits := Some 2;
            circuits := Some [[4; 3]; [4; 5]]; height := Some 5;
            solve_time := Some (1 # 4);
            coords := Some {| cx := [Some 4; Some 0]; cy := [Some 0; Some 0] |};
            rotation := Some [false; false] |} = Some N
       ∧ (1 ≤ N →
          ∃ r, Some [false; false] = Some r ∧ length r = Z.to_nat N
               ∧ (BASE = BASE → base_model_without_rot →
                    r = replicate (Z.to_nat N) false)).
Proof.
  intros E.
  apply (run_mip_solver_rotation (E := E) "ins-1" BASE CPLEX 300 []).
  - reflexivity.
  - reflexivity.
Defined.

(** ** [compute_solution] *)

Section compute_solution.
Context `{E : Collaborators}.

Lemma run_mip_solver_trace input_name model_type solver timeout :
  ∀ e, e ∈ (run_mip_solver input_name model_type solver timeout).1 →
       ∃ err, e = LogUnexpected err.
Proof.
  intros e. unfold run_mip_solver.
  destruct (prepare input_name model_type solver timeout)
    as [[[[sol0 N] prob] slv]|err]; [|by intros ?%elem_of_nil].
  rewrite lift_Ok_bind. destruct (solve prob slv) as [solved|err]; simpl.
  - destruct (StatusEnum_of _); simpl; [|by intros ?%elem_of_nil].
    destruct (compute_solve_time _); simpl; by intros ?%elem_of_nil.
  - intros ->%list_elem_of_singleton. by exists err.
Qed.

Lemma produce_solution_trace input_name model_type solver timeout :
  ∀ e, e ∈ (produce_solution input_name model_type solver timeout).1 →
       ∃ err, e = LogUnexpected err.
Proof.
  intros e. unfold produce_solution. case_decide.
  { destruct (run_minizinc _ _ _); simpl; by intros ?%elem_of_nil. }
  case_decide; [|by intros ?%elem_of_nil].
  pose proof (run_mip_solver_trace input_name model_type solver timeout e) as Hrun.
  destruct (run_mip_solver _ _ _ _) as [t [s|err]]; simpl in *.
  - by rewrite app_nil_r.
  - done.
Qed.
End compute_solution.


Example compute_solution_scenario :
  @compute_solution (scenario_collaborators (Ok scenario_solved))
    "ins-1" BASE CPLEX 300 false
  = ([], Raise TypeError).
Proof. reflexivity. Qed.

(* ===================================================================== *)
(** * Further properties of the SMT encoding                              *)
(* ===================================================================== *)

Lemma mapM_Raise {A B} (f : A → result B) l e :
  mapM f l = Raise e → ∃ x, x ∈ l ∧ f x = Raise e.
Proof.
  induction l as [|x l IH]; [done|]. cbn.
  destruct (f x) as [y|e'] eqn:Hx; cbn.
  - destruct (mapM f l) as [k|e'] eqn:Hl; cbn; [done|].
    intros [= ->]. destruct IH as (x' & ? & ?); [done|].
    exists x'. split; [by apply list_elem_of_further | done].
  - intros [= ->]. exists x. split; [apply list_elem_of_here | done].
Qed.

(** The assertions of a returned script are exactly the ones the source
    lines append. *)
Lemma script_assertions W N widths heights logic s t :
  build_SMTLIB_script W N widths heights logic = Ok s →
  Assert t ∈ s ↔ assertion_of W N widths heights t.
Proof.
  intros []%build_SMTLIB_script_blocks. subst s. split.
  - intros H.
    apply elem_of_app in H as [H|H];
      [by apply list_elem_of_singleton in H|].
    apply elem_of_app in H as [H|H].
    { unfold declarations in H. rewrite !elem_of_app, !list_elem_of_fmap in H.
      destruct H as [(? & ? & _)|[(? & ? & _)|H]]; try done.
      by apply list_elem_of_singleton in H. }
    apply elem_of_app in H as [H|H]; [|apply elem_of_app in H as [H|H];
      [|apply elem_of_app in H as [H|H]; [|apply elem_of_app in H as [H|H];
      [|apply elem_of_app in H as [H|H]; [|apply elem_of_app in H as [H|H];
      [|apply elem_of_app in H as [H|H]; [|apply elem_of_app in H as [H|H];
      [|apply elem_of_app in H as [H|H]; [|apply elem_of_app in H as [H|H];
      by apply list_elem_of_singleton in H]]]]]]]]].
    + destruct (mapM_Ok_elem_inv _ _ _ _ b_domain_x H) as (i & Hi%elem_of_range & Hc).
      apply bind_Ok in Hc as (m & Hm & [= <-]). by econstructor.
    + destruct (mapM_Ok_elem_inv _ _ _ _ b_domain_y H) as (i & Hi%elem_of_range & Hc).
      apply bind_Ok in Hc as (m & Hm & [= <-]). by econstructor.
    + apply list_elem_of_singleton in H. injection H as ->. by constructor.
    + destruct (mapM_Ok_elem_inv _ _ _ _ b_non_overlap H)
        as ([i j] & [??]%elem_of_pairs_lt & Hc).
      unfold non_overlap in Hc.
      apply bind_Ok in Hc as (wi & <-%index_Ok_total & Hc).
      apply bind_Ok in Hc as (hi & <-%index_Ok_total & Hc).
      apply bind_Ok in Hc as (wj & <-%index_Ok_total & Hc).
      apply bind_Ok in Hc as (hj & <-%index_Ok_total & [= <-]).
      by constructor.
    + destruct (mapM_Ok_elem_inv _ _ _ _ b_boundary H) as (i & Hi%elem_of_range & Hc).
      unfold boundary in Hc.
      apply bind_Ok in Hc as (wi & <-%index_Ok_total & Hc).
      apply bind_Ok in Hc as (hi & <-%index_Ok_total & [= <-]).
      by constructor.
    + destruct (mapM_Ok_elem_inv _ _ _ _ b_cumulative_w H) as (w & Hw & Hc).
      by eapply A_cumulative_w.
    + destruct (mapM_Ok_elem_inv _ _ _ _ b_cumulative_h H) as (h & Hh & Hc).
      by eapply A_cumulative_h.
    + destruct (mapM_Ok_elem_inv _ _ _ _ b_same_size H)
        as ([i j] & [??]%elem_of_pairs_lt & Hc).
      unfold same_size in Hc.
      apply bind_Ok in Hc as (wi & <-%index_Ok_total & Hc).
      apply bind_Ok in Hc as (wj & <-%index_Ok_total & Hc).
      apply bind_Ok in Hc as (hi & <-%index_Ok_total & Hc).
      apply bind_Ok in Hc as (hj & <-%index_Ok_total & [= <-]).
      by constructor.
    + unfold origin in H. rewrite !elem_of_cons in H.
      destruct H as [[= ->]|[[= ->]|H]]; [by constructor..|].
      by apply elem_of_nil in H.
  - intros Ht. rewrite !elem_of_app.
    destruct Ht as [i m Hi Hm|i m Hi Hm|lo' Hlo|i j Hij Hj|i Hi|w t Hw Hc|h t Hh Hc
                   |i j Hij Hj|k' Hk|k' Hk].
    + apply elem_of_range in Hi.
      destruct (mapM_Ok_elem _ _ _ _ b_domain_x Hi) as (c & Hc & Hin).
      unfold domain_x in Hc. rewrite Hm in Hc. injection Hc as <-. auto 10.
    + apply elem_of_range in Hi.
      destruct (mapM_Ok_elem _ _ _ _ b_domain_y Hi) as (c & Hc & Hin).
      unfold domain_y in Hc. rewrite Hm in Hc. injection Hc as <-. auto 10.
    + assert (lo' = lo) as -> by congruence.
      do 4 right. left. apply list_elem_of_singleton. done.
    + assert (Hp : (i, j) ∈ pairs_lt N) by by apply elem_of_pairs_lt.
      destruct (mapM_Ok_elem _ _ _ _ b_non_overlap Hp) as (c & Hc & Hin).
      unfold non_overlap in Hc.
      apply bind_Ok in Hc as (wi & <-%index_Ok_total & Hc).
      apply bind_Ok in Hc as (hi & <-%index_Ok_total & Hc).
      apply bind_Ok in Hc as (wj & <-%index_Ok_total & Hc).
      apply bind_Ok in Hc as (hj & <-%index_Ok_total & [= <-]).
      auto 10.
    + apply elem_of_range in Hi.
      destruct (mapM_Ok_elem _ _ _ _ b_boundary Hi) as (c & Hc & Hin).
      unfold boundary in Hc.
      apply bind_Ok in Hc as (wi & <-%index_Ok_total & Hc).
      apply bind_Ok in Hc as (hi & <-%index_Ok_total & [= <-]).
      auto 10.
    + destruct (mapM_Ok_elem _ _ _ _ b_cumulative_w Hw) as (c & Hc' & Hin).
      assert (c = Assert t) as -> by congruence. auto 10.
    + destruct (mapM_Ok_elem _ _ _ _ b_cumulative_h Hh) as (c & Hc' & Hin).
      assert (c = Assert t) as -> by congruence. auto 10.
    + assert (Hp : (i, j) ∈ pairs_lt N) by by apply elem_of_pairs_lt.
      destruct (mapM_Ok_elem _ _ _ _ b_same_size Hp) as (c & Hc & Hin).
      unfold same_size in Hc.
      apply bind_Ok in Hc as (wi & <-%index_Ok_total & Hc).
      apply bind_Ok in Hc as (wj & <-%index_Ok_total & Hc).
      apply bind_Ok in Hc as (hi & <-%index_Ok_total & Hc).
      apply bind_Ok in Hc as (hj & <-%index_Ok_total & [= <-]).
      auto 12.
    + assert (k' = k) as -> by congruence. unfold origin.
      rewrite !elem_of_cons. auto 20.
    + assert (k' = k) as -> by congruence. unfold origin.
      rewrite !elem_of_cons. auto 20.
Qed.

(** X1. In every model of the script of a well-formed instance no unit cell
    is covered by two distinct items, and every covered cell lies in the
    strip: its column is in [[0, W)] and its row in [[0, l)]. *)
Theorem build_SMTLIB_model_cells W N widths heights logic :
  well_formed W N widths heights →
  ∃ s, build_SMTLIB_script W N widths heights logic = Ok s
       ∧ ∀ a, models a s →
           (∀ i j p q, (i < Z.to_nat N)%nat → (j < Z.to_nat N)%nat → i ≠ j →
              covers widths heights a i p q → ¬ covers widths heights a j p q)
           ∧ (∀ i p q, (i < Z.to_nat N)%nat → covers widths heights a i p q →
                0 ≤ p < W ∧ 0 ≤ q < a l_var).
Proof.
  intros Hwf.
  destruct (build_SMTLIB_script_is_Ok _ _ _ _ Hwf logic) as [s Hs].
  exists s. split; [done|]. intros a Ha.
  destruct (models_valid_placement _ _ _ _ _ _ _ Hs Ha) as [Hsep Hin]. split.
  - intros i j p q Hi Hj Hij [Hxi Hyi] [Hxj Hyj].
    destruct (decide (i < j)%nat).
    + destruct (Hsep i j) as [?|[?|[?|?]]]; [done..|lia|lia|lia|lia].
    + destruct (Hsep j i) as [?|[?|[?|?]]]; [lia|done|lia..].
  - intros i p q Hi [Hx Hy]. destruct (Hin i Hi) as (? & ? & ? & ?). lia.
Qed.

Lemma build_SMTLIB_model_cells_witness :
  ∃ s, build_SMTLIB_script 8 2 [4; 4] [3; 5] "LIA" = Ok s
       ∧ ∀ a, models a s →
           (∀ i j p q, (i < Z.to_nat 2)%nat → (j < Z.to_nat 2)%nat → i ≠ j →
              covers [4; 4] [3; 5] a i p q → ¬ covers [4; 4] [3; 5] a j p q)
           ∧ (∀ i p q, (i < Z.to_nat 2)%nat → covers [4; 4] [3; 5] a i p q →
                0 ≤ p < 8 ∧ 0 ≤ q < a l_var).
Proof.
  apply (build_SMTLIB_model_cells 8 2 [4; 4] [3; 5] "LIA").
  repeat split; simpl; lia.
Defined.








(** ** What the encoder raises *)




(** ** The script is a well-formed SMT-LIB text *)






Lemma elem_of_concat {A} (x : A) (ls : list (list A)) :
  x ∈ concat ls ↔ ∃ l, l ∈ ls ∧ x ∈ l.
Proof.
  rewrite list_elem_of_In, in_concat. split.
  - intros (l & ? & ?). exists l. by rewrite !list_elem_of_In.
  - intros (l & ? & ?). exists l. by rewrite <- !list_elem_of_In.
Qed.

Lemma omap_none {A B} (f : A → option B) (l : list A) :
  (∀ x, x ∈ l → f x = None) → omap f l = [].
Proof.
  induction l as [|x l IH]; intros Hl; [done|]. cbn.
  rewrite (Hl x) by apply list_elem_of_here.
  apply IH. intros y ?. by apply Hl, list_elem_of_further.
Qed.

Lemma declared_declarations N :
  declared (declarations N)
  = map coord_x (range N) ++ map coord_y (range N) ++ [l_var].
Proof.
  unfold declared, declarations. rewrite !omap_app. f_equal; [|f_equal].
  - induction (range N) as [|i l IH]; [done|]. cbn. by rewrite IH.
  - induction (range N) as [|i l IH]; [done|]. cbn. by rewrite IH.
Qed.

Lemma cumulative_w_vars W N widths heights w t v :
  cumulative_w W N widths heights w = Ok (Assert t) →
  v ∈ term_vars t → ∃ i, (i < Z.to_nat N)%nat ∧ v = coord_y i.
Proof.
  unfold cumulative_w. intros (ts & Hts & [= <-])%bind_Ok. cbn.
  rewrite app_nil_r, elem_of_concat.
  intros (l & (t & -> & Ht)%list_elem_of_fmap & Hv).
  destruct (mapM_Ok_elem_inv _ _ _ _ Hts Ht) as (i & Hi%elem_of_range & Hc).
  apply bind_Ok in Hc as (hi & _ & Hc).
  apply bind_Ok in Hc as (wi & _ & [= <-]). cbn in Hv.
  exists i. split; [done|].
  rewrite !elem_of_cons in Hv. by destruct Hv as [->|[->|?%elem_of_nil]].
Qed.

Lemma cumulative_h_vars N widths heights h t v :
  cumulative_h N widths heights h = Ok (Assert t) →
  v ∈ term_vars t →
  v = l_var ∨ ∃ i, (i < Z.to_nat N)%nat ∧ v = coord_x i.
Proof.
  unfold cumulative_h. intros (ts & Hts & [= <-])%bind_Ok. cbn.
  rewrite elem_of_app, list_elem_of_singleton, elem_of_concat.
  intros [(l & (t & -> & Ht)%list_elem_of_fmap & Hv)| ->]; [|by left]. right.
  destruct (mapM_Ok_elem_inv _ _ _ _ Hts Ht) as (i & Hi%elem_of_range & Hc).
  apply bind_Ok in Hc as (wi & _ & Hc).
  apply bind_Ok in Hc as (hi & _ & [= <-]). cbn in Hv.
  exists i. split; [done|].
  rewrite !elem_of_cons in Hv. by destruct Hv as [->|[->|?%elem_of_nil]].
Qed.

(** X5. A returned script is closed: it declares [coord_x0..coord_x{N-1}],
    [coord_y0..coord_y{N-1}] and [l], each exactly once, before the first
    assertion, and every constant that occurs in an assertion is one of
    them. *)
Theorem build_SMTLIB_model_closed W N widths heights logic :
  well_formed W N widths heights →
  ∃ s, build_SMTLIB_script W N widths heights logic = Ok s
       ∧ declared s = map coord_x (range N) ++ map coord_y (range N) ++ [l_var]
       ∧ NoDup (declared s)
       ∧ (∀ t v, Assert t ∈ s → v ∈ term_vars t → v ∈ declared s)
       ∧ ∃ pre post, s = pre ++ post
                     ∧ (∀ t, Assert t ∉ pre) ∧ (∀ v, DeclareInt v ∉ post).
Proof.
  intros Hwf.
  destruct (build_SMTLIB_script_is_Ok _ _ _ _ Hwf logic) as [s Hs].
  exists s. split; [done|].
  pose proof Hs as Hb. apply build_SMTLIB_script_blocks in Hb as [].
  set (post := dx ++ dy ++ [domain_l heights lo] ++ no ++ bd ++ cw ++ ch ++ ss
               ++ origin k ++ [CheckSat] ++ [GetModel]) in *.
  assert (Hnot : ∀ c, c ∈ post → (∃ t, c = Assert t) ∨ c = CheckSat ∨ c = GetModel).
  { subst post. intros c. rewrite !elem_of_app, !list_elem_of_singleton.
    unfold origin, domain_l. rewrite !elem_of_cons, elem_of_nil.
    intros H. repeat match type of H with
              | _ ∨ _ => destruct H as [H|H]
              end; subst; try (by eauto); try done.
    - destruct (mapM_Ok_elem_inv _ _ _ _ b_domain_x H) as (i & _ & Hc).
      apply bind_Ok in Hc as (? & _ & [= <-]). eauto.
    - destruct (mapM_Ok_elem_inv _ _ _ _ b_domain_y H) as (i & _ & Hc).
      apply bind_Ok in Hc as (? & _ & [= <-]). eauto.
    - destruct (mapM_Ok_elem_inv _ _ _ _ b_non_overlap H) as ([i j] & _ & Hc).
      unfold non_overlap in Hc.
      repeat (apply bind_Ok in Hc as (? & _ & Hc)). injection Hc as <-. eauto.
    - destruct (mapM_Ok_elem_inv _ _ _ _ b_boundary H) as (i & _ & Hc).
      unfold boundary in Hc.
      repeat (apply bind_Ok in Hc as (? & _ & Hc)). injection Hc as <-. eauto.
    - destruct (mapM_Ok_elem_inv _ _ _ _ b_cumulative_w H) as (w & _ & Hc).
      apply bind_Ok in Hc as (? & _ & [= <-]). eauto.
    - destruct (mapM_Ok_elem_inv _ _ _ _ b_cumulative_h H) as (h & _ & Hc).
      apply bind_Ok in Hc as (? & _ & [= <-]). eauto.
    - destruct (mapM_Ok_elem_inv _ _ _ _ b_same_size H) as ([i j] & _ & Hc).
      unfold same_size in Hc.
      repeat (apply bind_Ok in Hc as (? & _ & Hc)). injection Hc as <-. eauto. }
  assert (Hpost : ∀ v, DeclareInt v ∉ post).
  { intros v Hv. by destruct (Hnot _ Hv) as [[t ?]|[?|?]]. }
  assert (Hdecl : declared s
            = map coord_x (range N) ++ map coord_y (range N) ++ [l_var]).
  { rewrite b_script. unfold declared at 1. rewrite !omap_app.
    fold (declared (declarations N)). rewrite declared_declarations.
    rewrite (omap_none _ post); [by rewrite app_nil_r|].
    intros c Hc. destruct c; try done. by destruct (Hpost v). }
  split; [done|]. split; [|split].
  - rewrite Hdecl. apply NoDup_app. split; [|split].
    + apply NoDup_fmap_2; [by intros ?? [=] | apply NoDup_seq].
    + intros v (i & -> & _)%list_elem_of_fmap.
      rewrite elem_of_app, list_elem_of_fmap, list_elem_of_singleton.
      by intros [(? & ? & _)|?].
    + apply NoDup_app. split; [|split].
      * apply NoDup_fmap_2; [by intros ?? [=] | apply NoDup_seq].
      * intros v (i & -> & _)%list_elem_of_fmap. by intros ?%list_elem_of_singleton.
      * apply NoDup_singleton.
  - intros t v Ht Hv. rewrite Hdecl.
    rewrite !elem_of_app, !list_elem_of_fmap, list_elem_of_singleton.
    assert (Hx : ∀ i, (i < Z.to_nat N)%nat →
               ∃ y, coord_x i = coord_x y ∧ y ∈ range N).
    { intros i Hi. exists i. by rewrite elem_of_range. }
    assert (Hy : ∀ i, (i < Z.to_nat N)%nat →
               ∃ y, coord_y i = coord_y y ∧ y ∈ range N).
    { intros i Hi. exists i. by rewrite elem_of_range. }
    eapply script_assertions in Ht; [|exact Hs].
    destruct Ht as [i m Hi Hm|i m Hi Hm|lo' Hlo|i j Hij Hj|i Hi|w t Hw Hc|h t Hh Hc
                   |i j Hij Hj|k' Hk|k' Hk]; cbn in Hv;
      try (rewrite !elem_of_cons, ?elem_of_nil in Hv;
           repeat match type of Hv with
           | _ ∨ _ => destruct Hv as [Hv|Hv]
           end; subst; try done; auto 6; try (left; apply Hx; lia);
           try (right; left; apply Hy; lia)).
    + destruct (cumulative_w_vars _ _ _ _ _ _ _ Hc Hv) as (i & Hi & ->). auto.
    + destruct (cumulative_h_vars _ _ _ _ _ _ Hc Hv) as [->|(i & Hi & ->)]; auto.
    + left. apply Hx. by apply max_area_ind_first in Hk as [? _].
    + right. left. apply Hy. by apply max_area_ind_first in Hk as [? _].
  - exists ([SetLogic logic] ++ declarations N), post.
    split; [by rewrite b_script, <- (assoc_L (++))|]. split; [|done].
    intros t. unfold declarations.
    rewrite !elem_of_app, !list_elem_of_fmap, !list_elem_of_singleton.
    by intros [?|[(? & ? & _)|[(? & ? & _)|?]]].
Qed.

Lemma build_SMTLIB_model_closed_witness :
  ∃ s, build_SMTLIB_script 8 2 [4; 4] [3; 5] "LIA" = Ok s
       ∧ declared s = map coord_x (range 2) ++ map coord_y (range 2) ++ [l_var]
       ∧ NoDup (declared s)
       ∧ (∀ t v, Assert t ∈ s → v ∈ term_vars t → v ∈ declared s)
       ∧ ∃ pre post, s = pre ++ post
                     ∧ (∀ t, Assert t ∉ pre) ∧ (∀ v, DeclareInt v ∉ post).
Proof.
  apply (build_SMTLIB_model_closed 8 2 [4; 4] [3; 5] "LIA").
  repeat split; simpl; lia.
Defined.

(** ** The cumulative constraints are implied *)

Lemma pairwise_sep_filter (P : Z * Z → Prop) `{∀ p, Decision (P p)} l :
  pairwise_sep l → pairwise_sep (filter P l).
Proof.
  induction l as [|p l IH]; [done|]. intros [Hp Hl].
  rewrite filter_cons. case_decide; [|by apply IH].
  split; [|by apply IH].
  apply Forall_forall. intros q [_ Hq]%list_elem_of_filter.
  rewrite Forall_forall in Hp. by apply Hp.
Qed.

Lemma total_length_filter (P : Z * Z → Prop) `{∀ p, Decision (P p)} l :
  total_length l
  = total_length (filter P l) + total_length (filter (λ p, ¬ P p) l).
Proof.
  unfold total_length. induction l as [|p l IH]; [done|].
  rewrite !filter_cons. cbn. repeat case_decide; cbn; try done; lia.
Qed.

(** Pairwise separated intervals inside [[lo, hi]] have total length at
    most [hi - lo]. *)
Lemma disjoint_intervals_sum (n : nat) :
  ∀ (l : list (Z * Z)) (lo hi : Z),
    (length l ≤ n)%nat → lo ≤ hi →
    Forall (λ p, 0 ≤ p.2 ∧ lo ≤ p.1 ∧ p.1 + p.2 ≤ hi) l →
    pairwise_sep l →
    total_length l ≤ hi - lo.
Proof.
  induction n as [|n IH]; intros l lo hi Hlen Hlohi Hin Hsep.
  { destruct l; simpl in Hlen; [|lia]. unfold total_length. simpl. lia. }
  destruct l as [|[x w] l]; [unfold total_length; simpl; lia|].
  apply Forall_cons in Hin as [(Hw & Hlo & Hhi) Hin]. simpl in Hw, Hlo, Hhi.
  destruct Hsep as [Hx Hsep]. simpl in Hlen.
  set (left_of := λ q : Z * Z, q.1 + q.2 ≤ x).
  rewrite Forall_forall in Hin, Hx.
  assert (HL : total_length (filter left_of l) ≤ x - lo).
  { apply IH.
    - pose proof (length_filter left_of l). lia.
    - done.
    - apply Forall_forall. intros q [Hq Hql]%list_elem_of_filter.
      destruct (Hin q Hql) as (? & ? & ?). unfold left_of in Hq. lia.
    - by apply pairwise_sep_filter. }
  assert (HR : total_length (filter (λ q, ¬ left_of q) l) ≤ hi - (x + w)).
  { apply IH.
    - pose proof (length_filter (λ q, ¬ left_of q) l). lia.
    - done.
    - apply Forall_forall. intros q [Hq Hql]%list_elem_of_filter.
      destruct (Hin q Hql) as (? & ? & ?).
      destruct (Hx q Hql) as [?|?]; simpl in *; [lia|].
      unfold left_of in Hq. lia.
    - by apply pairwise_sep_filter. }
  change (total_length ((x, w) :: l)) with (w + total_length l).
  rewrite (total_length_filter left_of l). lia.
Qed.

Section sum_where_lemmas.
Variables (sel : nat → Prop) (pos size : nat → Z).
Context `{∀ i, Decision (sel i)}.

Lemma sum_selected (l : list nat) :
  foldr Z.add 0 (map (λ i, if decide (sel i) then size i else 0) l)
  = total_length (map (λ i, (pos i, size i)) (filter sel l)).
Proof.
  unfold total_length. induction l as [|i l IH]; [done|].
  rewrite filter_cons. cbn. case_decide; cbn; rewrite IH; lia.
Qed.

Lemma pairwise_sep_seq (start n : nat) :
  (∀ i j, (start ≤ i)%nat → (i < j)%nat → (j < start + n)%nat →
          sel i → sel j → interval_sep (pos i, size i) (pos j, size j)) →
  pairwise_sep (map (λ i, (pos i, size i)) (filter sel (seq start n))).
Proof.
  revert start. induction n as [|n IH]; intros start Hsep; [done|].
  cbn [seq]. rewrite filter_cons.
  assert (Hrest : pairwise_sep
            (map (λ i, (pos i, size i)) (filter sel (seq (S start) n)))).
  { apply IH. intros i j ?????. apply Hsep; (done || lia). }
  case_decide; [|done]. split; [|done].
  apply Forall_forall. intros q (j & -> & [Hj Hjn%elem_of_seq]%list_elem_of_filter)%list_elem_of_fmap.
  apply Hsep; (done || lia).
Qed.
End sum_where_lemmas.

(** A valid placement of items of non-negative sizes satisfies the two
    cumulative bounds at every level. *)
Lemma valid_placement_cumulative W N widths heights a :
  1 ≤ N →
  (∀ i, (i < Z.to_nat N)%nat → 0 ≤ w_ widths i ∧ 0 ≤ h_ heights i) →
  valid_placement W N widths heights a →
  ∀ level, cumulative_w_holds W N widths heights level a
           ∧ cumulative_h_holds N widths heights level a.
Proof.
  intros HN Hpos [Hsep Hin] level.
  destruct (Hin 0%nat ltac:(lia)) as (Hx0 & Hy0 & Hw0 & Hh0).
  destruct (Hpos 0%nat ltac:(lia)) as [Hwp Hhp].
  split.
  - unfold cumulative_w_holds, sum_where.
    rewrite (sum_selected _ (X a) (w_ widths)).
    match goal with |- ?t ≤ _ => assert (t ≤ W - 0); [|lia] end.
    eapply disjoint_intervals_sum; [done|lia|..].
    + apply Forall_forall.
      intros q (i & -> & [_ Hi%elem_of_range]%list_elem_of_filter)%list_elem_of_fmap.
      destruct (Hin i Hi) as (? & ? & ? & ?). destruct (Hpos i Hi). simpl. lia.
    + apply pairwise_sep_seq. intros i j _ Hij Hj [??] [??].
      destruct (Hpos i ltac:(lia)). destruct (Hpos j ltac:(lia)).
      unfold interval_sep. simpl.
      destruct (Hsep i j Hij ltac:(lia)) as [?|[?|[?|?]]]; lia.
  - unfold cumulative_h_holds, sum_where.
    rewrite (sum_selected _ (Y a) (h_ heights)).
    match goal with |- ?t ≤ _ => assert (t ≤ a l_var - 0); [|lia] end.
    eapply disjoint_intervals_sum; [done|lia|..].
    + apply Forall_forall.
      intros q (i & -> & [_ Hi%elem_of_range]%list_elem_of_filter)%list_elem_of_fmap.
      destruct (Hin i Hi) as (? & ? & ? & ?). destruct (Hpos i Hi). simpl. lia.
    + apply pairwise_sep_seq. intros i j _ Hij Hj [??] [??].
      destruct (Hpos i ltac:(lia)). destruct (Hpos j ltac:(lia)).
      unfold interval_sep. simpl.
      destruct (Hsep i j Hij ltac:(lia)) as [?|[?|[?|?]]]; lia.
Qed.

(** The placement facts need only the assertions that are not cumulative. *)
Lemma models_without_cumulative_valid W N widths heights logic s a :
  build_SMTLIB_script W N widths heights logic = Ok s →
  well_formed W N widths heights →
  models_without_cumulative a s →
  valid_placement W N widths heights a.
Proof.
  intros Hs Hwf Ha.
  destruct (min_is_Ok _ (widths_nonempty _ _ _ _ Hwf)) as [mw Hmw].
  destruct (min_is_Ok _ (heights_nonempty _ _ _ _ Hwf)) as [mh Hmh].
  assert (Huse : ∀ t, assertion_of W N widths heights t →
                      is_cumulative (Assert t) = false → holds a t).
  { intros t Ht. apply Ha. by eapply script_assertions. }
  split.
  - intros i j Hij Hj.
    assert (Ht := Huse _ (A_non_overlap W N widths heights i j Hij Hj) eq_refl).
    unfold separated, X, Y. eval_holds Ht; lia.
  - intros i Hi.
    assert (Hx := Huse _ (A_domain_x W N widths heights i mw Hi Hmw) eq_refl).
    assert (Hy := Huse _ (A_domain_y W N widths heights i mh Hi Hmh) eq_refl).
    assert (Hb := Huse _ (A_boundary W N widths heights i Hi) eq_refl).
    unfold inside, X, Y. eval_holds Hx. eval_holds Hy. eval_holds Hb. lia.
Qed.

Lemma models_without_cumulative_models W N widths heights logic s a :
  build_SMTLIB_script W N widths heights logic = Ok s →
  well_formed W N widths heights →
  (∀ i, (i < Z.to_nat N)%nat → 0 ≤ w_ widths i ∧ 0 ≤ h_ heights i) →
  models_without_cumulative a s → models a s.
Proof.
  intros Hs Hwf Hpos Ha t Ht.
  pose proof (models_without_cumulative_valid _ _ _ _ _ _ _ Hs Hwf Ha) as Hvalid.
  assert (HN : 1 ≤ N) by (destruct Hwf as (_ & ? & _); done).
  pose proof (valid_placement_cumulative _ _ _ _ _ HN Hpos Hvalid) as Hcum.
  pose proof Ht as Hin. eapply script_assertions in Ht; [|exact Hs].
  destruct Ht as [i m Hi Hm|i m Hi Hm|lo' Hlo|i j Hij Hj|i Hi|w t Hw Hc|h t Hh Hc
                 |i j Hij Hj|k' Hk|k' Hk]; try (by apply Ha).
  - destruct (cumulative_w_states _ _ _ _ _ _ Hc) as (_ & t' & [= <-] & Hst).
    apply Hst, Hcum.
  - destruct (cumulative_h_states _ _ _ _ _ Hc) as (_ & t' & [= <-] & Hst).
    apply Hst, Hcum.
Qed.

(** X6. The cumulative constraints are implied by the others: for a
    well-formed instance with non-negative widths and heights, an assignment
    that satisfies every assertion of the script other than the cumulative
    ones (lines 58-64) satisfies those too, so they exclude no placement. *)
Theorem build_SMTLIB_model_cumulative_implied W N widths heights logic :
  well_formed W N widths heights →
  (∀ i, (i < Z.to_nat N)%nat → 0 ≤ w_ widths i ∧ 0 ≤ h_ heights i) →
  ∃ s, build_SMTLIB_script W N widths heights logic = Ok s
       ∧ ∀ a, models_without_cumulative a s → models a s.
Proof.
  intros Hwf Hpos.
  destruct (build_SMTLIB_script_is_Ok _ _ _ _ Hwf logic) as [s Hs].
  exists s. split; [done|]. intros a.
  by eapply models_without_cumulative_models.
Qed.

Lemma build_SMTLIB_model_cumulative_implied_witness :
  ∃ s, build_SMTLIB_script 8 2 [4; 4] [3; 5] "LIA" = Ok s
       ∧ ∀ a, models_without_cumulative a s → models a s.
Proof.
  apply (build_SMTLIB_model_cumulative_implied 8 2 [4; 4] [3; 5] "LIA").
  - repeat split; simpl; lia.
  - intros [|[|i]] Hi; simpl in Hi; [by vm_compute..|lia].
Defined.

(** ** The script of a valid instance is satisfiable *)




Section stacked.
Variables (heights : list Z) (k : nat).
Hypothesis Hk : (k < length heights)%nat.
Hypothesis Hpos : Forall (λ h, 0 < h) heights.









End stacked.

(** What each form of assertion says, for any assignment. *)
Section holds_forms.
Variable a : assignment.






End holds_forms.




(* ===================================================================== *)
(** * Further properties of the MIP decode path                           *)
(* ===================================================================== *)

Section decode_more.
Context `{E : Collaborators}.

Lemma decode_variable_lengths xs ys rot v xs' ys' rot' :
  decode_variable (xs, ys, rot) v = Ok (xs', ys', rot') →
  length xs' = length xs ∧ length ys' = length ys ∧ length rot' = length rot.
Proof.
  unfold decode_variable.
  destruct (startswith "coord_x" (name v)).
  { intros (r & _ & (i & _ & (l & Hl & [= <- <- <-])%bind_Ok)%bind_Ok)%bind_Ok.
    by rewrite (setitem_length _ _ _ _ Hl). }
  destruct (startswith "coord_y" (name v)).
  { intros (r & _ & (i & _ & (l & Hl & [= <- <- <-])%bind_Ok)%bind_Ok)%bind_Ok.
    by rewrite (setitem_length _ _ _ _ Hl). }
  destruct (startswith "rot" (name v)).
  { intros (r & _ & (i & _ & (l & Hl & [= <- <- <-])%bind_Ok)%bind_Ok)%bind_Ok.
    by rewrite (setitem_length _ _ _ _ Hl). }
  by intros [= <- <- <-].
Qed.

Lemma decode_variables_lengths vs xs ys rot xs' ys' rot' :
  decode_variables (xs, ys, rot) vs = Ok (xs', ys', rot') →
  length xs' = length xs ∧ length ys' = length ys ∧ length rot' = length rot.
Proof.
  revert xs ys rot. induction vs as [|v vs IH]; intros xs ys rot; simpl.
  - by intros [= <- <- <-].
  - intros ([[xs1 ys1] rot1] & Hv & Hvs)%bind_Ok.
    apply decode_variable_lengths in Hv as (? & ? & ?).
    apply IH in Hvs as (? & ? & ?). repeat split; congruence.
Qed.

(** What [decode] leaves in the solution. *)
Lemma decode_fields N prob sol sol' :
  decode N prob sol = Ok sol' →
  status sol' = status sol ∧ n_circuits sol' = n_circuits sol
  ∧ circuits sol' = circuits sol ∧ solve_time sol' = solve_time sol
  ∧ Data.input_name sol' = Data.input_name sol ∧ width sol' = width sol
  ∧ (SOLUTION_ADMISSABLE (status sol) = false → sol' = sol)
  ∧ (SOLUTION_ADMISSABLE (status sol) = true →
       ∃ q xs ys rot,
         objective_value prob = Some q
         ∧ height sol' = Some (round_half_even q)
         ∧ coords sol' = Some {| cx := xs; cy := ys |}
         ∧ length xs = Z.to_nat N ∧ length ys = Z.to_nat N
         ∧ length rot = Z.to_nat N
         ∧ rotation sol' = (if decide (0 < length rot)%nat then Some rot else None)).
Proof.
  unfold decode. destruct (SOLUTION_ADMISSABLE (status sol)) eqn:Hadm.
  - intros (h & Hh & ([[xs ys] rot] & Hdec & [= <-])%bind_Ok)%bind_Ok.
    repeat split; try done. intros _.
    unfold round in Hh. destruct (objective_value prob) as [q|]; [|done].
    injection Hh as <-.
    apply decode_variables_lengths in Hdec as (Hx & Hy & Hr).
    rewrite !length_replicate in *.
    by exists q, xs, ys, rot.
  - intros [= <-]. by repeat split.
Qed.
End decode_more.

(** X8. A solution that [run_mip_solver] returns with an admissible status
    is populated: nothing was logged, [height] is the objective value
    rounded half to even, [solve_time] is set, [circuits] has [N] pairs
    [[width, height]], and [coords["x"]] and [coords["y"]] are lists of
    exactly [N] entries. *)
Theorem run_mip_solver_admissible `{E : Collaborators}
    input_name model_type solver timeout t sol :
  run_mip_solver input_name model_type solver timeout = (t, Ok sol) →
  SOLUTION_ADMISSABLE (status sol) = true →
  ∃ N cs xs ys h tm,
    t = []
    ∧ n_circuits sol = Some N
    ∧ circuits sol = Some cs ∧ length cs = Z.to_nat N
    ∧ Forall (λ c, length c = 2%nat) cs
    ∧ coords sol = Some {| cx := xs; cy := ys |}
    ∧ length xs = Z.to_nat N ∧ length ys = Z.to_nat N
    ∧ height sol = Some h ∧ solve_time sol = Some tm.
Proof.
  intros (sol0 & N & prob & slv & Hprep & Hcases)%run_mip_solver_Ok Hadm.
  destruct (prepare_fields _ _ _ _ _ _ _ _ Hprep)
    as (W & widths & heights & cs & _ & _ & HN & Hcs & Hmap & _).
  destruct Hcases as [(err & _ & _ & ->)|(solved & st & tm & _ & _ & _ & Hdec & ->)];
    [done|].
  apply decode_fields in Hdec as (Hst & Hn & Hc & Htm & _ & _ & _ & Hpop).
  rewrite Hst in Hadm. destruct (Hpop Hadm) as (q & xs & ys & rot & _ & Hh & Hco & Hx & Hy & _).
  exists N, cs, xs, ys, (round_half_even q), tm.
  split; [done|]. split; [by rewrite Hn|]. split; [by rewrite Hc|].
  split.
  { apply mapM_Ok_length in Hmap. unfold range in Hmap.
    by rewrite length_seq in Hmap. }
  split.
  { apply Forall_forall. intros c Hc'.
    destruct (mapM_Ok_elem_inv _ _ _ _ Hmap Hc') as (i & _ & Hi).
    apply bind_Ok in Hi as (w & _ & Hi).
    by apply bind_Ok in Hi as (h & _ & [= <-]). }
  repeat split; done.
Qed.

Lemma run_mip_solver_admissible_witness :
  let E := scenario_collaborators (Ok scenario_solved) in
  ∃ N cs xs ys h tm,
    @nil event = []
    ∧ Some 2 = Some N
    ∧ Some [[4; 3]; [4; 5]] = Some cs ∧ length cs = Z.to_nat N
    ∧ Forall (λ c : list Z, length c = 2%nat) cs
    ∧ Some {| cx := [Some 4; Some 0]; cy := [Some 0; Some 0] |}
      = Some {| cx := xs; cy := ys |}
    ∧ length xs = Z.to_nat N ∧ length ys = Z.to_nat N
    ∧ Some 5 = Some h ∧ Some (1 # 4) = Some tm.
Proof.
  intros E.
  apply (run_mip_solver_admissible (E := E) "ins-1" BASE CPLEX 300 []
    {| status := Some OPTIMAL; input_name := Some "ins-1";
       width := Some 8; n_circuits := Some 2;
       circuits := Some [[4; 3]; [4; 5]]; height := Some 5;
       solve_time := Some (1 # 4);
       coords := Some {| cx := [Some 4; Some 0]; cy := [Some 0; Some 0] |};
       rotation := Some [false; false] |}).
  - reflexivity.
  - reflexivity.
Defined.

(** X9. A solution that [run_mip_solver] returns with a status that is not
    admissible (the solver found nothing, or failed) has a status and its
    instance fields set, and [coords], [height] and [rotation] are still as
    [Solution()] made them: nothing is decoded. *)
Theorem run_mip_solver_not_admissible `{E : Collaborators}
    input_name model_type solver timeout t sol :
  run_mip_solver input_name model_type solver timeout = (t, Ok sol) →
  SOLUTION_ADMISSABLE (status sol) = false →
  is_Some (status sol)
  ∧ Data.input_name sol = Some input_name
  ∧ is_Some (n_circuits sol) ∧ is_Some (circuits sol)
  ∧ coords sol = coords Solution_new
  ∧ height sol = height Solution_new
  ∧ rotation sol = rotation Solution_new.
Proof.
  intros (sol0 & N & prob & slv & Hprep & Hcases)%run_mip_solver_Ok Hadm.
  destruct (prepare_fields _ _ _ _ _ _ _ _ Hprep)
    as (W & widths & heights & cs & Hname & _ & HN & Hcs & _ & _ & Hco & Hh & Hr & _).
  destruct Hcases as [(err & _ & _ & ->)|(solved & st & tm & _ & _ & _ & Hdec & ->)].
  - simpl. rewrite HN, Hcs. by repeat split.
  - apply decode_fields in Hdec as (Hst & _ & _ & _ & _ & _ & Hsame & _).
    rewrite Hst in Hadm. rewrite (Hsame Hadm). simpl.
    rewrite HN, Hcs. by repeat split.
Qed.

Lemma run_mip_solver_not_admissible_witness :
  let E := scenario_collaborators
             (Ok {| sol_status := 0; solutionTime := 300 # 1;
                    objective_value := None; variables := [] |}) in
  let sol := {| status := Some NO_SOLUTION_FOUND; input_name := Some "ins-1";
                width := Some 8; n_circuits := Some 2;
                circuits := Some [[4; 3]; [4; 5]]; height := None;
                solve_time := Some (300 # 1); coords := None;
                rotation := None |} in
  is_Some (status sol)
  ∧ Data.input_name sol = Some "ins-1"
  ∧ is_Some (n_circuits sol) ∧ is_Some (circuits sol)
  ∧ coords sol = coords Solution_new
  ∧ height sol = height Solution_new
  ∧ rotation sol = rotation Solution_new.
Proof.
  intros E sol.
  apply (run_mip_solver_not_admissible (E := E) "ins-1" BASE CPLEX 300 [] sol).
  - reflexivity.
  - reflexivity.
Defined.

(** X10. Only the call [prob.solve(solver)] is guarded. Once the solver has
    returned, an exception raised by the status conversion, by the solve-time
    computation, or by rounding a missing objective value of an admissible
    solution, propagates out of [run_mip_solver]: nothing is logged and no
    solution of status [ERROR] is returned. *)
Theorem run_mip_solver_uncaught `{E : Collaborators}
    input_name model_type solver timeout sol0 N prob slv solved e :
  prepare input_name model_type solver timeout = Ok (sol0, N, prob, slv) →
  solve prob slv = Ok solved →
  StatusEnum_of (sol_status solved) = Raise e
  ∨ (∃ st, StatusEnum_of (sol_status solved) = Ok st
           ∧ compute_solve_time (solutionTime solved) = Raise e)
  ∨ (∃ st tm, StatusEnum_of (sol_status solved) = Ok st
              ∧ compute_solve_time (solutionTime solved) = Ok tm
              ∧ SOLUTION_ADMISSABLE (Some st) = true
              ∧ objective_value solved = None ∧ e = TypeError) →
  run_mip_solver input_name model_type solver timeout = ([], Raise e).
Proof.
  intros Hprep Hsolve Hcases. unfold run_mip_solver.
  rewrite Hprep, lift_Ok_bind. simpl. rewrite Hsolve.
  destruct Hcases as [Hst|[(st & Hst & Htm)|(st & tm & Hst & Htm & Hadm & Hobj & ->)]].
  - by rewrite Hst.
  - rewrite Hst. cbn. by rewrite Htm.
  - rewrite Hst. cbn. rewrite Htm. cbn. unfold decode.
    destruct st; try discriminate Hadm; cbn; by rewrite Hobj.
Qed.

Lemma run_mip_solver_uncaught_witness :
  let E := scenario_collaborators
             (Ok {| sol_status := 1; solutionTime := 1 # 4;
                    objective_value := None; variables := [] |}) in
  run_mip_solver "ins-1" BASE CPLEX 300 = ([], Raise TypeError).
Proof.
  intros E.
  eapply (run_mip_solver_uncaught (E := E) "ins-1" BASE CPLEX 300).
  - reflexivity.
  - reflexivity.
  - right. right. exists OPTIMAL, (1 # 4). by repeat split.
Defined.

(** ** The decode loop stores the last value written *)

Lemma setitem_lookup {A} (l l' : list A) (i : Z) (x : A) (p : nat) :
  setitem l i x = Ok l' →
  ∃ k, position (length l) i = Some k
       ∧ l' !! k = Some x
       ∧ (p ≠ k → l' !! p = l !! p).
Proof.
  unfold setitem, position. repeat case_decide; intros [= <-].
  - exists (Z.to_nat i). split; [done|]. split.
    + apply list_lookup_insert_eq. lia.
    + intros. by apply list_lookup_insert_ne.
  - exists (Z.to_nat (Z.of_nat (length l) + i)). split; [done|]. split.
    + apply list_lookup_insert_eq. lia.
    + intros. by apply list_lookup_insert_ne.
Qed.

Section last_writer.
Context `{E : Collaborators}.

Lemma decode_variable_entries f st v st' p :
  decode_variable st v = Ok st' →
  length (entries f st') = length (entries f st)
  ∧ (∀ q, writes f (length (entries f st)) v = Some p → varValue v = Some q →
          entries f st' !! p = Some (Some (round_half_even q)))
  ∧ (writes f (length (entries f st)) v ≠ Some p →
       entries f st' !! p = entries f st !! p).
Proof.
  destruct st as [[xs ys] rot]. unfold decode_variable, writes.
  destruct (startswith "coord_x" (name v)).
  { intros (r & Hr & (i & Hi & (l & Hl & [= <-])%bind_Ok)%bind_Ok)%bind_Ok.
    rewrite Hi. destruct f; simpl; [|done].
    destruct (setitem_lookup _ _ _ _ p Hl) as (k & Hk & Hat & Hother).
    rewrite Hk. split; [by eapply setitem_length|]. split.
    - intros q [= ->] Hq. rewrite Hq in Hr. by injection Hr as <-.
    - intros Hne. apply Hother. congruence. }
  destruct (startswith "coord_y" (name v)).
  { intros (r & Hr & (i & Hi & (l & Hl & [= <-])%bind_Ok)%bind_Ok)%bind_Ok.
    rewrite Hi. destruct f; simpl; [done|].
    destruct (setitem_lookup _ _ _ _ p Hl) as (k & Hk & Hat & Hother).
    rewrite Hk. split; [by eapply setitem_length|]. split.
    - intros q [= ->] Hq. rewrite Hq in Hr. by injection Hr as <-.
    - intros Hne. apply Hother. congruence. }
  destruct (startswith "rot" (name v)).
  { intros (r & Hr & (i & Hi & (l & Hl & [= <-])%bind_Ok)%bind_Ok)%bind_Ok.
    by destruct f. }
  intros [= <-]. by destruct f.
Qed.

Lemma decode_variables_app st vs1 vs2 :
  decode_variables st (vs1 ++ vs2)
  = st1 ← decode_variables st vs1; decode_variables st1 vs2.
Proof.
  revert st. induction vs1 as [|v vs1 IH]; intros st; [done|]. simpl.
  destruct (decode_variable st v) as [st1|e]; simpl; [apply IH | done].
Qed.

Lemma decode_variables_untouched f vs st st' p :
  decode_variables st vs = Ok st' →
  (∀ v, v ∈ vs → writes f (length (entries f st)) v ≠ Some p) →
  length (entries f st') = length (entries f st)
  ∧ entries f st' !! p = entries f st !! p.
Proof.
  revert st. induction vs as [|v vs IH]; intros st; simpl.
  - by intros [= <-].
  - intros (st1 & Hv & Hvs)%bind_Ok Hno.
    destruct (decode_variable_entries f st v st1 p Hv) as (Hlen & _ & Hsame).
    destruct (IH st1 Hvs) as [Hlen' Hsame'].
    { intros v' Hv'. rewrite Hlen. by apply Hno, list_elem_of_further. }
    split; [congruence|]. rewrite Hsame'. apply Hsame, Hno, list_elem_of_here.
Qed.
End last_writer.

(** X11. The decode loop keeps, at each position of [coords["x"]] and of
    [coords["y"]], the rounded value of the last variable that addresses it
    (a negative index counts from the end), and leaves a position that no
    variable addresses as it was. *)
Theorem decode_variables_last_writer `{E : Collaborators}
    (f : coord_field) st vs st' p :
  decode_variables st vs = Ok st' →
  (∀ vs1 v vs2 q,
     vs = vs1 ++ v :: vs2 →
     writes f (length (entries f st)) v = Some p → varValue v = Some q →
     (∀ v', v' ∈ vs2 → writes f (length (entries f st)) v' ≠ Some p) →
     entries f st' !! p = Some (Some (round_half_even q)))
  ∧ ((∀ v, v ∈ vs → writes f (length (entries f st)) v ≠ Some p) →
       entries f st' !! p = entries f st !! p).
Proof.
  intros Hdec. split.
  - intros vs1 v vs2 q -> Hw Hq Hlater.
    rewrite decode_variables_app in Hdec.
    apply bind_Ok in Hdec as (st1 & H1 & Hdec). simpl in Hdec.
    apply bind_Ok in Hdec as (st2 & Hv & H2).
    assert (Hlen1 : length (entries f st1) = length (entries f st)).
    { destruct st as [[xs ys] rot], st1 as [[xs1 ys1] rot1].
      apply decode_variables_lengths in H1 as (? & ? & ?). by destruct f. }
    destruct (decode_variable_entries f st1 v st2 p Hv) as (Hlen2 & Hat & _).
    destruct (decode_variables_untouched f vs2 st2 st' p H2) as [_ ->].
    { intros v' Hv'. rewrite Hlen2, Hlen1. by apply Hlater. }
    apply Hat; [by rewrite Hlen1 | done].
  - intros Hno. by apply (decode_variables_untouched f vs st st' p Hdec).
Qed.

Lemma decode_variables_last_writer_witness :
  let E := scenario_collaborators (Ok scenario_solved) in
  let vs := [ {| name := "coord_x_0"; varValue := Some (1 # 1) |};
              {| name := "coord_x_1"; varValue := Some (7 # 2) |};
              {| name := "coord_x_0"; varValue := Some (5 # 2) |} ] in
  let st := ([None; None], [None; None], [false; false]) in
  let st' := ([Some 2; Some 4], [None; None], [false; false]) in
  (∀ vs1 v vs2 q,
     vs = vs1 ++ v :: vs2 →
     writes CX (length (entries CX st)) v = Some 0%nat → varValue v = Some q →
     (∀ v', v' ∈ vs2 → writes CX (length (entries CX st)) v' ≠ Some 0%nat) →
     entries CX st' !! 0%nat = Some (Some (round_half_even q)))
  ∧ ((∀ v, v ∈ vs → writes CX (length (entries CX st)) v ≠ Some 0%nat) →
       entries CX st' !! 0%nat = entries CX st !! 0%nat).
Proof.
  intros E vs st st'.
  apply (decode_variables_last_writer (E := E) CX st vs st' 0).
  reflexivity.
Defined.

(* ===================================================================== *)
(** * Reporting a decoded solution                                        *)
(* ===================================================================== *)

Lemma for_cons {A} (x : A) (l : list A) (body : A → io unit) :
  for_ (x :: l) body = (body x ;; for_ l body).
Proof. reflexivity. Qed.

Lemma for_geometry_Ok (sol : Solution) (l : list nat) :
  (∀ i, i ∈ l → is_Ok (geometry_line sol i)) →
  ∃ geo, for_ l (λ i, line ← lift (geometry_line sol i); emit (Printed line))
         = (map Printed geo, Ok ())
         ∧ length geo = length l.
Proof.
  induction l as [|i l IH]; intros Hl.
  - by exists [].
  - destruct (Hl i) as [line Hline]; [apply list_elem_of_here|].
    destruct IH as (geo & Hgeo & Hlen).
    { intros j ?. by apply Hl, list_elem_of_further. }
    exists (line :: geo). split; [|by rewrite !length_cons, Hlen].
    rewrite for_cons, Hgeo, Hline. reflexivity.
Qed.

Lemma geometry_line_is_Ok (sol : Solution) (n : nat) cs xs ys i :
  circuits sol = Some cs → length cs = n → Forall (λ c, length c = 2%nat) cs →
  coords sol = Some {| cx := xs; cy := ys |} → length xs = n → length ys = n →
  (∃ rot, length rot = n
          ∧ rotation sol = if decide (0 < length rot)%nat then Some rot else None) →
  (i < n)%nat →
  is_Ok (geometry_line sol i).
Proof.
  intros Hcs Hlen Hpair Hco Hx Hy (rot & Hrot & Hr) Hi.
  unfold geometry_line.
  assert (Hrotated : is_Ok (rotated sol i)).
  { unfold rotated. rewrite Hr, decide_True by lia.
    destruct rot as [|b rot]; [simpl in Hrot; lia|].
    apply index_is_Ok. lia. }
  destruct Hrotated as [r ->]. simpl. rewrite Hcs. simpl.
  destruct (index_is_Ok cs i ltac:(lia)) as [c Hc]. rewrite Hc. simpl.
  assert (length c = 2%nat) as Hc2.
  { rewrite Forall_forall in Hpair. apply Hpair.
    apply index_Ok in Hc. by eapply list_elem_of_lookup_2. }
  destruct (index_is_Ok c (if r then 1 else 0)%nat) as [a ->];
    [destruct r; lia|]. simpl.
  destruct (index_is_Ok c (if r then 0 else 1)%nat) as [b ->];
    [destruct r; lia|]. simpl.
  rewrite Hco. simpl.
  destruct (index_is_Ok xs i ltac:(lia)) as [x ->]. simpl.
  destruct (index_is_Ok ys i ltac:(lia)) as [y ->]. simpl.
  by eexists.
Qed.

(** X12. Whatever [run_mip_solver] returns can be reported:
    [print_logging] applied to a returned solution does not raise. It prints
    the status message alone when the status is not admissible, and
    otherwise the status message, the summary line, the solve-time line and
    one geometry line for each of the [N] items. *)
Theorem print_logging_after_run_mip_solver `{E : Collaborators}
    input_name model_type solver timeout t sol :
  run_mip_solver input_name model_type solver timeout = (t, Ok sol) →
  ∃ N lines,
    n_circuits sol = Some N
    ∧ print_logging str_float sol = (map Printed lines, Ok ())
    ∧ length lines
      = if SOLUTION_ADMISSABLE (status sol) then (3 + Z.to_nat N)%nat else 1%nat.
Proof.
  intros (sol0 & N & prob & slv & Hprep & Hcases)%run_mip_solver_Ok.
  destruct (prepare_fields _ _ _ _ _ _ _ _ Hprep)
    as (W & widths & heights & cs & _ & _ & HN & Hcs & Hmap & _).
  exists N.
  assert (Hn : n_circuits sol = Some N
               ∧ circuits sol = Some cs
               ∧ (SOLUTION_ADMISSABLE (status sol) = true →
                    ∃ xs ys rot,
                      coords sol = Some {| cx := xs; cy := ys |}
                      ∧ length xs = Z.to_nat N ∧ length ys = Z.to_nat N
                      ∧ length rot = Z.to_nat N
                      ∧ rotation sol
                        = if decide (0 < length rot)%nat then Some rot else None)).
  { destruct Hcases as [(err & _ & _ & ->)|(solved & st & tm & _ & _ & _ & Hdec & _)].
    - by repeat split.
    - apply decode_fields in Hdec as (Hst & Hn & Hc & _ & _ & _ & _ & Hpop).
      split; [by rewrite Hn|]. split; [by rewrite Hc|].
      intros Hadm. rewrite Hst in Hadm.
      destruct (Hpop Hadm) as (q & xs & ys & rot & _ & _ & ? & ? & ? & ? & ?).
      by exists xs, ys, rot. }
  destruct Hn as (Hn & Hcirc & Hpop).
  unfold print_logging.
  destruct (SOLUTION_ADMISSABLE (status sol)) eqn:Hadm.
  - destruct (Hpop eq_refl) as (xs & ys & rot & Hco & Hx & Hy & Hrot & Hr).
    destruct (for_geometry_Ok sol (range N)) as (geo & Hgeo & Hlen).
    { intros i Hi%elem_of_range.
      eapply (geometry_line_is_Ok sol (Z.to_nat N)); try done.
      - apply mapM_Ok_length in Hmap. unfold range in Hmap.
        by rewrite length_seq in Hmap.
      - apply Forall_forall. intros c Hc'.
        destruct (mapM_Ok_elem_inv _ _ _ _ Hmap Hc') as (j & _ & Hj).
        apply bind_Ok in Hj as (w & _ & Hj).
        by apply bind_Ok in Hj as (h & _ & [= <-]).
      - by exists rot. }
    exists (status_message (status sol) :: solved_line sol
            :: time_line str_float sol :: geo).
    split; [done|]. split.
    + rewrite Hn, lift_Ok_bind. cbn beta. rewrite Hgeo. reflexivity.
    + simpl. rewrite Hlen. unfold range. by rewrite length_seq.
  - exists [status_message (status sol)]. by repeat split.
Qed.

Lemma print_logging_after_run_mip_solver_witness :
  let E := scenario_collaborators (Ok scenario_solved) in
  let sol := {| status := Some OPTIMAL; input_name := Some "ins-1";
                width := Some 8; n_circuits := Some 2;
                circuits := Some [[4; 3]; [4; 5]]; height := Some 5;
                solve_time := Some (1 # 4);
                coords := Some {| cx := [Some 4; Some 0];
                                  cy := [Some 0; Some 0] |};
                rotation := Some [false; false] |} in
  ∃ N lines,
    n_circuits sol = Some N
    ∧ print_logging str_float sol = (map Printed lines, Ok ())
    ∧ length lines
      = if SOLUTION_ADMISSABLE (status sol) then (3 + Z.to_nat N)%nat else 1%nat.
Proof.
  intros E sol.
  apply (print_logging_after_run_mip_solver (E := E) "ins-1" BASE CPLEX 300 []).
  reflexivity.
Defined.

(* ===================================================================== *)
(** * Properties of [save_solution]                                       *)
(* ===================================================================== *)

Lemma rows_Ok N widths heights cx cy :
  (Z.to_nat N ≤ length widths)%nat → (Z.to_nat N ≤ length heights)%nat →
  (Z.to_nat N ≤ length cx)%nat → (Z.to_nat N ≤ length cy)%nat →
  ∃ lines, rows N widths heights cx cy = Ok lines
    ∧ length lines = Z.to_nat N
    ∧ ∀ i, (i < Z.to_nat N)%nat →
        lines !! i = Some (pretty (widths !!! i) +:+ " " +:+
                           pretty (heights !!! i) +:+ " " +:+
                           pretty (cx !!! i) +:+ " " +:+
                           pretty (cy !!! i) +:+ newline).
Proof.
  intros Hw Hh Hx Hy. unfold rows.
  match goal with |- context [mapM ?f _] => set (row := f) end.
  destruct (mapM_is_Ok row (range N)) as [lines Hlines].
  { intros i Hi%elem_of_range. unfold row.
    destruct (index_is_Ok widths i) as [w ->]; [lia|].
    destruct (index_is_Ok heights i) as [h ->]; [lia|].
    destruct (index_is_Ok cx i) as [x ->]; [lia|].
    destruct (index_is_Ok cy i) as [y ->]; [lia|].
    by eexists. }
  exists lines. split; [done|].
  pose proof (mapM_Ok_length _ _ _ Hlines) as Hlen.
  unfold range in Hlen. rewrite length_seq in Hlen. split; [done|].
  intros i Hi. apply mapM_Ok in Hlines.
  destruct (lookup_lt_is_Some_2 lines i) as [ln Hln]; [lia|].
  rewrite Hln. f_equal.
  destruct (Forall2_lookup_r _ _ _ _ _ Hlines Hln) as (j & Hj & Hrow).
  unfold range in Hj. apply lookup_seq in Hj as [-> _]. simpl in Hrow.
  unfold row in Hrow.
  destruct (index widths i) as [w|] eqn:Ew; [|done].
  destruct (index heights i) as [h|] eqn:Eh; [|done].
  destruct (index cx i) as [x|] eqn:Ex; [|done].
  destruct (index cy i) as [y|] eqn:Ey; [|done].
  apply index_Ok_total in Ew, Eh, Ex, Ey. simpl in Hrow.
  injection Hrow as <-. by rewrite Ew, Eh, Ex, Ey.
Qed.

Lemma rows_Raise N widths heights cx cy e :
  rows N widths heights cx cy = Raise e →
  e = IndexError
  ∧ ¬ ((Z.to_nat N ≤ length widths)%nat ∧ (Z.to_nat N ≤ length heights)%nat
       ∧ (Z.to_nat N ≤ length cx)%nat ∧ (Z.to_nat N ≤ length cy)%nat).
Proof.
  intros Hr. split.
  - apply mapM_Raise in Hr as (i & _ & Hi). unfold index in Hi.
    destruct (widths !! i); [|by injection Hi]. simpl in Hi.
    destruct (heights !! i); [|by injection Hi]. simpl in Hi.
    destruct (cx !! i); [|by injection Hi]. simpl in Hi.
    destruct (cy !! i); [|by injection Hi]. done.
  - intros (Hw & Hh & Hx & Hy).
    destruct (rows_Ok N widths heights cx cy) as (? & Hok & _); try done.
    congruence.
Qed.

(** X13. [save_solution] either writes the whole file or leaves the file
    system as it was. With [N] entries in each of the four lists it returns
    [None], no other path changes, and the file written (the name with
    every "ins" replaced by "out") holds the line "W l", the line "N" and
    then, for each item in order, its line "w h x y". With a list shorter
    than [N] it raises [IndexError] before the file is opened: nothing is
    written, and a file already at that path is not truncated. *)
Theorem save_solution_outcome root model file_name W N l widths heights cx cy
    (fs : files) :
  let run :=
    save_solution root model file_name (W, N, l, widths, heights, cx, cy) fs in
  let out_file := out_path root model (replace_ins_out file_name) in
  let enough :=
    ((Z.to_nat N ≤ length widths)%nat ∧ (Z.to_nat N ≤ length heights)%nat
     ∧ (Z.to_nat N ≤ length cx)%nat ∧ (Z.to_nat N ≤ length cy)%nat) in
  (enough →
     run.2 = Ok ()
     ∧ (∀ p, p ≠ out_file → run.1 !! p = fs !! p)
     ∧ ∃ lines,
         run.1 !! out_file
           = Some (String.concat ""
                     ((pretty W +:+ " " +:+ pretty l +:+ newline)
                      :: (pretty N +:+ newline) :: lines))
         ∧ length lines = Z.to_nat N
         ∧ ∀ i, (i < Z.to_nat N)%nat →
             lines !! i = Some (pretty (widths !!! i) +:+ " " +:+
                                pretty (heights !!! i) +:+ " " +:+
                                pretty (cx !!! i) +:+ " " +:+
                                pretty (cy !!! i) +:+ newline))
  ∧ (¬ enough → run = (fs, Raise IndexError)).
Proof.
  intros run out_file enough. subst run. unfold save_solution.
  fold out_file. split.
  - intros (Hw & Hh & Hx & Hy).
    destruct (rows_Ok N widths heights cx cy) as (lines & -> & Hlen & Hrows);
      try done.
    split; [done|]. split.
    + intros p Hp. simpl. by rewrite lookup_insert_ne.
    + exists lines. split; [|done]. simpl. by rewrite lookup_insert_eq.
  - intros Hne. destruct (rows N widths heights cx cy) as [lines|e] eqn:Hr.
    + exfalso. apply Hne. unfold enough.
      assert (Hall : ∀ i, (i < Z.to_nat N)%nat →
                (i < length widths ∧ i < length heights
                 ∧ i < length cx ∧ i < length cy)%nat).
      { intros i Hi. apply elem_of_range in Hi.
        destruct (mapM_Ok_elem _ _ _ _ Hr Hi) as (ln & Hln & _).
        unfold index in Hln.
        destruct (widths !! i) eqn:Ew; [|done]. simpl in Hln.
        destruct (heights !! i) eqn:Eh; [|done]. simpl in Hln.
        destruct (cx !! i) eqn:Ex; [|done]. simpl in Hln.
        destruct (cy !! i) eqn:Ey; [|done].
        apply lookup_lt_Some in Ew, Eh, Ex, Ey. done. }
      destruct (Z.to_nat N) as [|n]; [lia|].
      destruct (Hall n) as (? & ? & ? & ?); [lia|]. lia.
    + apply rows_Raise in Hr as [-> _]. done.
Qed.

Example save_solution_scenario :
  save_solution "." "SMT" "ins-1.txt" (3, 2, 2, [1; 2], [2; 1], [0; 1], [0; 0]) ∅
  = ({[ "./out/SMT/out-1.txt" :=
          "3 2" +:+ newline +:+ "2" +:+ newline +:+ "1 2 0 0" +:+ newline
          +:+ "2 1 1 0" +:+ newline ]}, Ok ()).
Proof. reflexivity. Qed.

(* ===================================================================== *)
(** * Properties of [compute_tests]                                       *)
(* ===================================================================== *)

Section compute_tests.
Context `{E : Collaborators} `{B : BatchCollaborators}.

(** [compute_solution] ends in an exception, and only the log of an
    unexpected solver error can have happened before it. *)
Lemma compute_solution_raises input_name model_type solver timeout verbose :
  ∃ t e, compute_solution input_name model_type solver timeout verbose
         = (t, Raise e)
         ∧ ∀ ev, ev ∈ t → ∃ err, ev = LogUnexpected err.
Proof.
  unfold compute_solution.
  destruct (format_plot_file input_name model_type) as [pf|e].
  2:{ exists [], e. split; [done | by intros ? ?%elem_of_nil]. }
  rewrite lift_Ok_bind.
  pose proof (produce_solution_trace input_name model_type solver timeout) as Htr.
  destruct (produce_solution input_name model_type solver timeout)
    as [t [[sol|]|e]]; simpl in *.
  - exists t, TypeError. by rewrite ?app_nil_r.
  - exists t, UnboundLocalError. by rewrite ?app_nil_r.
  - by exists t, e.
Qed.

(** X14. The batch never gets past its first instance: [compute_solution]
    ends in an exception, which [compute_tests] does not catch. So no
    statistics are saved, no summary line is printed and nothing is
    plotted, whatever the instances. With an empty iterator the batch
    returns [None] having done nothing; an exception of
    [checking_instances] or [format_statistic_file] propagates. *)
Theorem compute_tests_first_instance test_instances model_type solver timeout
    verbose :
  let run := compute_tests test_instances model_type solver timeout verbose in
  (∀ path sol, SaveStatistics path sol ∉ run.1)
  ∧ (∀ line, Core (Printed line) ∉ run.1)
  ∧ (∀ sol plot_file, Core (Plot sol plot_file) ∉ run.1)
  ∧ match checking_instances test_instances,
          format_statistic_file test_instances model_type solver with
    | Raise e, _ => run = ([], Raise e)
    | Ok _, Raise e => run = ([], Raise e)
    | Ok [], Ok _ => run = ([], Ok ())
    | Ok (i :: _), Ok _ =>
        let first := compute_solution ("ins-" +:+ pretty i) model_type solver
                       timeout verbose in
        run.1 = map Core first.1
        ∧ ∃ e, first.2 = Raise e ∧ run.2 = Raise e
    end.
Proof.
  intros run.
  assert (Hcases :
    match checking_instances test_instances,
          format_statistic_file test_instances model_type solver with
    | Raise e, _ => run = ([], Raise e)
    | Ok _, Raise e => run = ([], Raise e)
    | Ok [], Ok _ => run = ([], Ok ())
    | Ok (i :: _), Ok _ =>
        let first := compute_solution ("ins-" +:+ pretty i) model_type solver
                       timeout verbose in
        run.1 = map Core first.1
        ∧ ∃ e, first.2 = Raise e ∧ run.2 = Raise e
    end).
  { subst run. unfold compute_tests.
    destruct (checking_instances test_instances) as [[|i rest]|e];
      destruct (format_statistic_file test_instances model_type solver)
        as [path|e']; try done.
    cbv zeta.
    destruct (compute_solution_raises ("ins-" +:+ pretty i) model_type solver
                timeout verbose) as (t & e & Hfirst & _).
    cbn -[compute_solution]. rewrite Hfirst. cbn. split; [done | by exists e]. }
  assert (Hev : ∀ ev, ev ∈ run.1 → ∃ err, ev = Core (LogUnexpected err)).
  { destruct (checking_instances test_instances) as [[|i rest]|e];
      destruct (format_statistic_file test_instances model_type solver)
        as [path|e'];
      try (rewrite Hcases; by intros ? ?%elem_of_nil).
    destruct Hcases as [-> _].
    destruct (compute_solution_raises ("ins-" +:+ pretty i) model_type solver
                timeout verbose) as (t & e & -> & Ht).
    intros ev (ev' & -> & [err ->]%Ht)%list_elem_of_fmap. by exists err. }
  repeat split; try done.
  - intros path sol [err [=]]%Hev.
  - intros line [err [=]]%Hev.
  - intros sol pf [err [=]]%Hev.
Qed.
End compute_tests.

(* ===================================================================== *)
(** * The output file name                                                *)
(* ===================================================================== *)

Lemma prefix_cons a p c s :
  String.prefix (String a p) (String c s)
  = if decide (a = c) then String.prefix p s else false.
Proof.
  cbn -[ascii_dec]. destruct (ascii_dec a c); case_decide; congruence.
Qed.

Lemma prefix_nil_r a p : String.prefix (String a p) "" = false.
Proof. done. Qed.

Lemma prefix_nil_l s : String.prefix "" s = true.
Proof. by destruct s. Qed.

Lemma replace_ins_out_ins rest :
  replace_ins_out (String "i" (String "n" (String "s" rest)))
  = String "o" (String "u" (String "t" (replace_ins_out rest))).
Proof. reflexivity. Qed.

Lemma replace_ins_out_other c rest :
  String.prefix "ins" (String c rest) = false →
  replace_ins_out (String c rest) = String c (replace_ins_out rest).
Proof.
  intros Hp. destruct (ascii_dec c "i") as [->|Hc].
  2:{ destruct c as [[] [] [] [] [] [] [] []]; try reflexivity.
      by destruct Hc. }
  destruct rest as [|c2 r2]; [reflexivity|].
  destruct (ascii_dec c2 "n") as [->|Hc2].
  2:{ destruct c2 as [[] [] [] [] [] [] [] []]; try reflexivity.
      by destruct Hc2. }
  destruct r2 as [|c3 r3]; [reflexivity|].
  destruct (ascii_dec c3 "s") as [->|Hc3]; [by destruct r3|].
  destruct c3 as [[] [] [] [] [] [] [] []]; try reflexivity.
  by destruct Hc3.
Qed.

Lemma prefix_ins_inv s :
  String.prefix "ins" s = true →
  ∃ rest, s = String "i" (String "n" (String "s" rest)).
Proof.
  destruct s as [|c1 [|c2 [|c3 r]]];
    rewrite ?prefix_cons, ?prefix_nil_r; repeat case_decide; subst;
    rewrite ?prefix_cons, ?prefix_nil_r; repeat case_decide; subst;
    try done.
  by exists r.
Qed.

(** The first character of the result is the first character of the
    argument, or the "o" of a replacement. *)
Lemma replace_ins_out_head s :
  match replace_ins_out s with
  | EmptyString => s = EmptyString
  | String c _ => c = "o"%char ∨ ∃ r, s = String c r
  end.
Proof.
  destruct s as [|c rest]; [done|].
  destruct (String.prefix "ins" (String c rest)) eqn:Hp.
  - apply prefix_ins_inv in Hp as [r ->]. rewrite replace_ins_out_ins.
    by left.
  - rewrite replace_ins_out_other by done. right. by exists rest.
Qed.

Lemma prefix_ins_replace c rest :
  String.prefix "ins" (String c rest) = false →
  String.prefix "ins" (String c (replace_ins_out rest)) = false.
Proof.
  rewrite !prefix_cons. case_decide as Hc; [subst c|done].
  pose proof (replace_ins_out_head rest) as Hh1.
  destruct (replace_ins_out rest) as [|c2 q2] eqn:Hq; [done|].
  rewrite prefix_cons. case_decide as Hc2; [subst c2|done].
  destruct Hh1 as [[=]|[r2 ->]].
  rewrite prefix_cons, decide_True by done. intros Hp.
  rewrite replace_ins_out_other in Hq by done.
  injection Hq as <-.
  pose proof (replace_ins_out_head r2) as Hh2.
  destruct (replace_ins_out r2) as [|c3 q3]; [done|].
  rewrite prefix_cons. case_decide as Hc3; [subst c3|done].
  destruct Hh2 as [[=]|[r3 ->]].
  by rewrite prefix_cons, decide_True, prefix_nil_l in Hp.
Qed.

Lemma replace_ins_out_strong n : ∀ s,
  (String.length s < n)%nat →
  String.length (replace_ins_out s) = String.length s
  ∧ contains_ins (replace_ins_out s) = false.
Proof.
  induction n as [|n IH]; intros s Hn; [lia|].
  destruct s as [|c rest]; [done|].
  destruct (String.prefix "ins" (String c rest)) eqn:Hp.
  - apply prefix_ins_inv in Hp as [r [= -> ->]].
    rewrite replace_ins_out_ins. cbn in Hn.
    destruct (IH r) as [Hlen Hno]; [lia|]. split.
    + cbn. by rewrite Hlen.
    + cbn [contains_ins]. rewrite !prefix_cons, Hno.
      by repeat (rewrite decide_False by done).
  - rewrite replace_ins_out_other by done. cbn in Hn.
    destruct (IH rest) as [Hlen Hno]; [lia|]. split.
    + cbn. by rewrite Hlen.
    + cbn [contains_ins]. rewrite Hno, orb_false_r.
      by apply prefix_ins_replace.
Qed.

(** X15. The output name that [save_solution] derives from the input name:
    it has the length of the input name, no "ins" is left anywhere in it
    (every occurrence is replaced, not only a leading one, and the
    replacement creates no new one), and a name without "ins" is kept as
    it is, so that such an input file shares its name with the output. *)
Theorem replace_ins_out_spec s :
  String.length (replace_ins_out s) = String.length s
  ∧ contains_ins (replace_ins_out s) = false
  ∧ (contains_ins s = false → replace_ins_out s = s).
Proof.
  destruct (replace_ins_out_strong (S (String.length s)) s) as [Hlen Hno];
    [lia|].
  split; [done|]. split; [done|]. clear Hlen Hno.
  induction s as [|c rest IH]; [done|].
  cbn [contains_ins]. intros [Hp Hrest]%orb_false_elim.
  rewrite replace_ins_out_other by done. f_equal. by apply IH.
Qed.

Example replace_ins_out_every_occurrence :
  replace_ins_out "instances/ins-1.txt" = "outtances/out-1.txt".
Proof. reflexivity. Qed.

(* ===================================================================== *)
(** * The size of the script                                              *)
(* ===================================================================== *)

Lemma length_pairs_row (i : nat) : ∀ m a,
  length (j ← seq a m; if decide (i < j)%nat then [(i, j)] else [])
  = (a + m - Nat.max a (S i))%nat.
Proof.
  induction m as [|m IH]; intros a; [cbn; lia|].
  cbn [seq]. change (length ((if decide (i < a)%nat then [(i, a)] else [])
    ++ (j ← seq (S a) m; if decide (i < j)%nat then [(i, j)] else []))
    = (a + S m - Nat.max a (S i))%nat).
  rewrite length_app, IH. case_decide; cbn [length]; lia.
Qed.

Lemma length_pairs_lt_from (n : nat) : ∀ m a, (a + m = n)%nat →
  (2 * length (i ← seq a m; j ← seq 0 n;
                 if decide (i < j)%nat then [(i, j)] else [])
   = m * (m - 1))%nat.
Proof.
  induction m as [|m IH]; intros a Ha; [done|].
  cbn [seq].
  change (2 * length ((j ← seq 0 n; if decide (a < j)%nat then [(a, j)] else [])
    ++ (i ← seq (S a) m; j ← seq 0 n;
          if decide (i < j)%nat then [(i, j)] else []))
    = S m * (S m - 1))%nat.
  rewrite length_app, length_pairs_row.
  specialize (IH (S a)). nia.
Qed.

Lemma length_pairs_lt N :
  (2 * length (pairs_lt N) = Z.to_nat N * (Z.to_nat N - 1))%nat.
Proof. unfold pairs_lt, range. by apply length_pairs_lt_from. Qed.

(** X16. The size of the encoding: a returned script has
    [7 + 5 N + len(widths) + len(heights) + N (N - 1)] commands, one line
    of the file each. It grows with the square of the number of items
    (the pairwise non-overlap and same-size assertions), and the two
    cumulative blocks follow the lengths of the lists, not [N]. *)
Theorem build_SMTLIB_script_size W N widths heights logic s :
  build_SMTLIB_script W N widths heights logic = Ok s →
  length s
  = (7 + 5 * Z.to_nat N + length widths + length heights
     + Z.to_nat N * (Z.to_nat N - 1))%nat.
Proof.
  intros Hs. apply build_SMTLIB_script_blocks in Hs as []. subst s.
  apply mapM_Ok_length in b_domain_x, b_domain_y, b_non_overlap, b_boundary,
    b_cumulative_w, b_cumulative_h, b_same_size.
  pose proof (length_pairs_lt N) as Hp.
  set (p := (Z.to_nat N * (Z.to_nat N - 1))%nat) in *.
  unfold declarations, origin. unfold range in *.
  rewrite !length_app, !length_map, !length_seq. rewrite length_seq in *.
  cbn [length]. lia.
Qed.

Lemma build_SMTLIB_script_size_witness :
  ∃ s, build_SMTLIB_script 8 2 [4; 4] [3; 5] "LIA" = Ok s ∧ length s = 23%nat.
Proof.
  eexists. split; [reflexivity|].
  apply (build_SMTLIB_script_size 8 2 [4; 4] [3; 5] "LIA"). reflexivity.
Defined.
